(** * PageRank over MapReduce and the inverted-index search engine

    A shallow embedding of [Projet_MapReduce/recherche.py]: the graph
    builder [read_html_files], the rank engine [initialize_page_ranks],
    [map_page_rank], [reduce_page_rank], [calculate_page_rank], and the
    query engine [search].

    Conventions of the embedding.
    - A Python [float] score is an exact canonical rational [Qc]: the
      statements are about the arithmetic the code performs, not about
      binary64 rounding.  The inputs of the counterexamples are scores
      that binary64 represents and adds exactly (1/2 and 1).
    - [pages] and the [results] table of [search] are dictionaries whose
      iteration order is observable (order of accumulation, order of
      ties in the result): they are association lists in insertion
      order.  The rank table, the contribution table and the inverted
      index are only ever read by key: they are [gmap]s.
    - [all_links] is a Python [set]: a [gset string].
    - A [ZeroDivisionError] is the [None] of an [option]. *)

From Stdlib Require Import QArith Qcanon Ascii String PrimFloat.
From stdpp Require Import gmap strings list fin_maps numbers sorting.

Local Open Scope Qc_scope.

(** ** Numbers *)

(** [float(n)] for a length [n]. *)
Definition of_len (n : nat) : Qc := Qc_of_Z (Z.of_nat n).

(** The default [damping_factor=0.85] of [reduce_page_rank]. *)
Definition damping_factor : Qc := Q2Qc (85 # 100).

(** ** Insertion-ordered dictionaries *)

(** [d[k] = v]: an existing key keeps its position, a new key goes last. *)
Fixpoint od_set {V : Type} (k : string) (v : V) (d : list (string * V))
  : list (string * V) :=
  match d with
  | [] => [(k, v)]
  | (k', v') :: d' =>
      if decide (k' = k) then (k, v) :: d' else (k', v') :: od_set k v d'
  end.

(** [d[k] += x] on a [defaultdict(float)]: a missing key is created with
    [0.0] at the end of the dictionary before the addition. *)
Fixpoint od_add (k : string) (x : Qc) (d : list (string * Qc))
  : list (string * Qc) :=
  match d with
  | [] => [(k, 0 + x)]
  | (k', v') :: d' =>
      if decide (k' = k) then (k', v' + x) :: d' else (k', v') :: od_add k x d'
  end.

(** [d.get(k)] *)
Fixpoint od_get {V : Type} (k : string) (d : list (string * V)) : option V :=
  match d with
  | [] => None
  | (k', v') :: d' => if decide (k' = k) then Some v' else od_get k d'
  end.

(** ** Graph builder: [read_html_files] *)

(** One [*.html] file of the directory as BeautifulSoup hands it over:
    its base name, the text of its body (empty without a body) and the
    [href] of every anchor, in document order. *)
Record html_file := HtmlFile {
  page_name : string;
  body_text : string;
  hrefs : list string
}.

Record corpus := Corpus {
  pages_of : list (string * list string);
  page_contents_of : list (string * string);
  all_links_of : gset string
}.

(** The body of the [for filepath in glob.glob(...)] loop. *)
Definition read_html_file (acc : corpus) (f : html_file) : corpus :=
  {| pages_of := od_set (page_name f) (hrefs f) (pages_of acc);
     page_contents_of := od_set (page_name f) (body_text f) (page_contents_of acc);
     all_links_of := all_links_of acc ∪ list_to_set (hrefs f) |}.

(** [read_html_files], on the files of the directory in glob order. *)
Definition read_html_files (files : list html_file) : corpus :=
  foldl read_html_file (Corpus [] [] ∅) files.

(** ** Rank engine *)

(** [len(all_links) if all_links else 1] *)
Definition num_pages_of (all_links : gset string) : nat :=
  if decide (all_links = ∅) then 1%nat else size all_links.

(** [if link not in page_ranks: page_ranks[link] = 1.0 / num_pages] *)
Definition init_link (num_pages : nat) (page_ranks : gmap string Qc)
  (link : string) : gmap string Qc :=
  match page_ranks !! link with
  | Some _ => page_ranks
  | None => <[link := 1 / of_len num_pages]> page_ranks
  end.

Definition initialize_page_ranks (pages : list (string * list string))
  (all_links : gset string) : gmap string Qc :=
  let num_pages := num_pages_of all_links in
  let page_ranks : gmap string Qc :=
    gset_to_gmap (1 / of_len num_pages) all_links in
  foldl (λ page_ranks entry, foldl (init_link num_pages) page_ranks entry.2)
        page_ranks pages.

(** [contributions[link] += share] on a [defaultdict(float)] *)
Definition add_contribution (share : Qc) (contributions : gmap string Qc)
  (link : string) : gmap string Qc :=
  <[link := default 0 (contributions !! link) + share]> contributions.

(** The body of the [for page, links in pages.items()] loop. *)
Definition map_page (page_ranks : gmap string Qc)
  (contributions : gmap string Qc) (entry : string * list string)
  : gmap string Qc :=
  let '(page, links) := entry in
  let num_links := length links in
  match page_ranks !! page with
  | Some rank =>
      if bool_decide (0 < num_links)%nat
      then foldl (add_contribution (rank / of_len num_links)) contributions links
      else contributions
  | None => contributions
  end.

Definition map_page_rank (pages : list (string * list string))
  (page_ranks : gmap string Qc) : gmap string Qc :=
  foldl (map_page page_ranks) ∅ pages.

(** [reduce_page_rank]: the comprehension divides by [num_pages] once per
    key of [contributions], so it raises exactly when [num_pages] is 0
    and there is a key. *)
Definition reduce_page_rank (contributions : gmap string Qc)
  (damping_factor : Qc) (num_pages : nat) : option (gmap string Qc) :=
  if bool_decide (num_pages = 0%nat ∧ contributions ≠ ∅) then None
  else
    let new_ranks : gmap string Qc :=
      (λ _, (1 - damping_factor) / of_len num_pages) <$> contributions in
    Some (map_zip_with (λ rank contribution, rank + damping_factor * contribution)
                       new_ranks contributions).

(** The [for _ in range(iterations)] loop of [calculate_page_rank]. *)
Fixpoint iterate_page_rank (pages : list (string * list string))
  (num_pages : nat) (iterations : nat) (page_ranks : gmap string Qc)
  : option (gmap string Qc) :=
  match iterations with
  | O => Some page_ranks
  | S iterations' =>
      new_ranks ← reduce_page_rank (map_page_rank pages page_ranks)
                                   damping_factor num_pages;
      iterate_page_rank pages num_pages iterations' new_ranks
  end.

Definition calculate_page_rank (pages : list (string * list string))
  (all_links : gset string) (iterations : nat) : option (gmap string Qc) :=
  let page_ranks := initialize_page_ranks pages all_links in
  let num_pages := size page_ranks in
  iterate_page_rank pages num_pages iterations page_ranks.

(** ** Query engine *)

(** The ASCII characters [str.split()] treats as separators: tab, line
    feed, vertical tab, form feed, carriage return, the four separator
    controls 0x1c-0x1f and the space. *)
Definition is_space (c : ascii) : bool :=
  let n := nat_of_ascii c in
  ((9 <=? n) && (n <=? 13) || (28 <=? n) && (n <=? 32))%nat.

(** The word collected so far, closed when a separator or the end of the
    string is met; an empty word is not emitted. *)
Definition flush_word (word : string) : list string :=
  match word with
  | EmptyString => []
  | _ => [word]
  end.

Fixpoint split_from (word : string) (s : string) : list string :=
  match s with
  | EmptyString => flush_word word
  | String c s' =>
      if is_space c then flush_word word ++ split_from EmptyString s'
      else split_from (word +:+ String c EmptyString) s'
  end.

(** [query.split()] *)
Definition split (query : string) : list string := split_from EmptyString query.

(** [sorted(..., key=lambda x: x[1], reverse=True)]: a stable sort into
    descending order of the second component.  An entry is placed in
    front of the first later entry whose rank is not greater than its
    own, so entries of equal rank keep their relative order. *)
Fixpoint insert_desc (x : string * Qc) (l : list (string * Qc))
  : list (string * Qc) :=
  match l with
  | [] => [x]
  | y :: l' => if bool_decide (x.2 < y.2) then y :: insert_desc x l' else x :: y :: l'
  end.

Definition sorted_desc (l : list (string * Qc)) : list (string * Qc) :=
  foldr insert_desc [] l.

Section Search.
(** [str.lower] and [unidecode.unidecode] are library functions; the
    query engine is correct for whatever they compute. *)
Variable lower unidecode : string → string.

(** [terms = [unidecode(term.lower()) for term in query.split()]] *)
Definition query_terms (query : string) : list string :=
  (λ term, unidecode (lower term)) <$> split query.

(** [results[page] += page_ranks.get(page, 0)] *)
Definition add_posting (page_ranks : gmap string Qc)
  (results : list (string * Qc)) (page : string) : list (string * Qc) :=
  od_add page (default 0 (page_ranks !! page)) results.

(** The body of the [for term in terms] loop. *)
Definition add_term (inverted_index : gmap string (list string))
  (page_ranks : gmap string Qc) (results : list (string * Qc))
  (term : string) : list (string * Qc) :=
  match inverted_index !! term with
  | Some posting => foldl (add_posting page_ranks) results posting
  | None => results
  end.

(** The [results] table when the loop over the terms is over. *)
Definition search_results (query : string)
  (inverted_index : gmap string (list string))
  (page_ranks : gmap string Qc) : list (string * Qc) :=
  foldl (add_term inverted_index page_ranks) [] (query_terms query).

Definition search (query : string)
  (inverted_index : gmap string (list string))
  (page_ranks : gmap string Qc) : list (string * Qc) :=
  sorted_desc (filter (λ entry, 0 < entry.2)
                      (search_results query inverted_index page_ranks)).
End Search.

(** An instance of the two library functions on ASCII text: upper-case
    letters are lowered, and the transliteration of ASCII is itself. *)
Definition ascii_lower_char (c : ascii) : ascii :=
  let n := nat_of_ascii c in
  if ((65 <=? n) && (n <=? 90))%nat then ascii_of_nat (n + 32) else c.

Fixpoint ascii_lower (s : string) : string :=
  match s with
  | EmptyString => EmptyString
  | String c s' => String (ascii_lower_char c) (ascii_lower s')
  end.

Definition ascii_unidecode (s : string) : string := s.

(** ** Index builder: [create_inverted_index] *)

Section Index.
Variable lower unidecode : string → string.

(** [inverted_index[normalized_word].append(page)] on a
    [defaultdict(list)] *)
Definition add_word (page : string)
  (inverted_index : gmap string (list string)) (word : string)
  : gmap string (list string) :=
  let normalized_word := unidecode (lower word) in
  <[normalized_word := default [] (inverted_index !! normalized_word) ++ [page]]>
    inverted_index.

(** The body of the [for page, content in page_contents.items()] loop. *)
Definition index_page (inverted_index : gmap string (list string))
  (entry : string * string) : gmap string (list string) :=
  let '(page, content) := entry in
  let words := split content in
  foldl (add_word page) inverted_index words.

Definition create_inverted_index (page_contents : list (string * string))
  : gmap string (list string) :=
  foldl index_page ∅ page_contents.
End Index.

(** ** The script below the functions *)

(** The body of the loop [for page in all_links] that follows the first
    call of [initialize_page_ranks]:
    [if page not in pages and page not in page_ranks:
       page_ranks[page] = 1.0 / len(all_links)].
    The loop runs only over a non-empty set, so the division is defined. *)
Definition add_missing_page (pages : list (string * list string))
  (all_links : gset string) (page_ranks : gmap string Qc) (page : string)
  : gmap string Qc :=
  if bool_decide (page ∉ pages.*1) && bool_decide (page_ranks !! page = None)
  then <[page := 1 / of_len (size all_links)]> page_ranks
  else page_ranks.

(** The whole loop, over the elements of the set in the order the set
    yields them. *)
Definition add_missing_pages (pages : list (string * list string))
  (all_links : gset string) (page_ranks : gmap string Qc) : gmap string Qc :=
  foldl (add_missing_page pages all_links) page_ranks (elements all_links).

(** The data path of the script for one query: the corpus is read, the
    ranks are computed with the default [iterations=10], the index is
    built from the page contents and the query is searched. *)
Definition search_engine (lower unidecode : string → string)
  (files : list html_file) (query : string) : option (list (string * Qc)) :=
  let c := read_html_files files in
  page_ranks ← calculate_page_rank (pages_of c) (all_links_of c) 10;
  let inverted_index := create_inverted_index lower unidecode (page_contents_of c) in
  Some (search lower unidecode query inverted_index page_ranks).

(** ** Specification vocabulary *)

(** Every identifier that occurs in some link list of [pages]. *)
Definition link_targets (pages : list (string * list string)) : gset string :=
  ⋃ ((λ entry, list_to_set entry.2) <$> pages).

(** The sum of a list of scores. *)
Definition sum_Qc (l : list Qc) : Qc := foldr Qcplus 0 l.

(** How many times [node] occurs in a list of identifiers. *)
Definition occurrences (node : string) (l : list string) : nat :=
  length (filter (λ x, x = node) l).

(** What one entry [(page, links)] of [pages] hands to [node] in a map
    phase: [score(page) / outDegree(page)] for each occurrence of [node]
    in [links] when [page] has a score, nothing otherwise. *)
Definition contribution_of (page_ranks : gmap string Qc)
  (entry : string * list string) (node : string) : Qc :=
  match page_ranks !! entry.1 with
  | Some rank => of_len (occurrences node entry.2) * (rank / of_len (length entry.2))
  | None => 0
  end.

(** [node] receives at least one contribution in the map phase: a page
    that has a score links to it. *)
Definition contributes (page_ranks : gmap string Qc)
  (pages : list (string * list string)) (node : string) : Prop :=
  ∃ page links, (page, links) ∈ pages ∧ is_Some (page_ranks !! page) ∧ node ∈ links.

(** Every score of the table is non-negative. *)
Definition nonneg_table (table : gmap string Qc) : Prop :=
  ∀ node score, table !! node = Some score → 0 ≤ score.

(** What the postings of one query term add to the total of [page]: its
    rank (0 without one) once per occurrence of [page] in the posting
    list of the term, nothing for a term that is not in the index. *)
Definition term_score (inverted_index : gmap string (list string))
  (page_ranks : gmap string Qc) (page term : string) : Qc :=
  match inverted_index !! term with
  | Some posting =>
      of_len (occurrences page posting) * default 0 (page_ranks !! page)
  | None => 0
  end.

(** The total of [page] over a list of query terms, a term counted as
    often as it occurs in the list. *)
Definition query_score (terms : list string)
  (inverted_index : gmap string (list string))
  (page_ranks : gmap string Qc) (page : string) : Qc :=
  sum_Qc (term_score inverted_index page_ranks page <$> terms).

(** [page] is in the posting list of some query term. *)
Definition matches (inverted_index : gmap string (list string))
  (terms : list string) (page : string) : Prop :=
  ∃ term posting,
    term ∈ terms ∧ inverted_index !! term = Some posting ∧ page ∈ posting.

(** Non-increasing order of the scores. *)
Definition descending (l : list (string * Qc)) : Prop :=
  StronglySorted (λ x y, y.2 ≤ x.2) l.

(** [s] holds one of the separators of [split]. *)
Fixpoint has_space (s : string) : bool :=
  match s with
  | EmptyString => false
  | String c s' => is_space c || has_space s'
  end.

(** The words of the corpus, each with the page it is in, in the order
    [create_inverted_index] meets them. *)
Definition page_words (page_contents : list (string * string))
  : list (string * string) :=
  page_contents ≫= λ entry, (λ word, (entry.1, word)) <$> split entry.2.

(** The pages of the words that normalise to [term], one per word. *)
Definition postings_of (lower unidecode : string → string)
  (page_contents : list (string * string)) (term : string) : list string :=
  fst <$> filter (λ pw, unidecode (lower pw.2) = term) (page_words page_contents).



(** [node] ends a walk of [n] links that starts at a node of [start]:
    each step goes from a document of [pages] to one of its links. *)
Fixpoint walk (pages : list (string * list string)) (start : gset string)
  (n : nat) (node : string) : Prop :=
  match n with
  | O => node ∈ start
  | S n' => ∃ page links,
      (page, links) ∈ pages ∧ node ∈ links ∧ walk pages start n' page
  end.

(** The number of postings of [page] that the terms of a query hit. *)
Definition hits (terms : list string)
  (inverted_index : gmap string (list string)) (page : string) : nat :=
  sum_list ((λ term, occurrences page (default [] (inverted_index !! term)))
              <$> terms).

(** * Properties *)

Lemma elem_of_link_targets pages node :
  node ∈ link_targets pages ↔
  ∃ page links, (page, links) ∈ pages ∧ node ∈ links.
Proof.
  unfold link_targets. rewrite elem_of_union_list. split.
  - intros (X & HX & Hn). apply list_elem_of_fmap in HX as ([page links] & -> & Hin).
    exists page, links. split; [done|]. by apply elem_of_list_to_set in Hn.
  - intros (page & links & Hin & Hn). exists (list_to_set links). split.
    + apply list_elem_of_fmap. by exists (page, links).
    + by apply elem_of_list_to_set.
Qed.

(** ** Graph builder *)

Lemma all_links_foldl files acc node :
  node ∈ all_links_of (foldl read_html_file acc files) ↔
  node ∈ all_links_of acc ∨ ∃ f, f ∈ files ∧ node ∈ hrefs f.
Proof.
  revert acc. induction files as [|f files IH]; intros acc; simpl.
  - split; [auto|]. intros [?|(f & Hf & _)]; [done|]. by apply elem_of_nil in Hf.
  - rewrite IH. simpl. rewrite elem_of_union, elem_of_list_to_set. split.
    + intros [[?|?]|(g & Hg & ?)]; [by left| |].
      * right. exists f. split; [apply list_elem_of_here|done].
      * right. exists g. split; [by apply list_elem_of_further|done].
    + intros [?|(g & Hg & ?)]; [by left; left|].
      apply elem_of_cons in Hg as [->|Hg]; [by left; right|].
      right. by exists g.
Qed.

Lemma elem_of_od_set {V} k (v : V) d entry :
  entry ∈ od_set k v d → entry = (k, v) ∨ entry ∈ d.
Proof.
  induction d as [|[k' v'] d IH]; simpl.
  - intros ->%list_elem_of_singleton. by left.
  - destruct (decide (k' = k)) as [->|Hne]; rewrite !elem_of_cons; naive_solver.
Qed.

(** Every link of the graph [read_html_files] returns is in the set it
    returns beside it. *)
Lemma read_html_files_links_known files :
  link_targets (pages_of (read_html_files files)) ⊆
  all_links_of (read_html_files files).
Proof.
  unfold read_html_files.
  assert (∀ acc, link_targets (pages_of acc) ⊆ all_links_of acc →
            link_targets (pages_of (foldl read_html_file acc files)) ⊆
            all_links_of (foldl read_html_file acc files)) as H.
  { induction files as [|f files IH]; intros acc Hacc; [done|].
    simpl. apply IH. simpl. intros node.
    rewrite elem_of_link_targets, elem_of_union, elem_of_list_to_set.
    intros (page & links & Hin & Hn).
    apply elem_of_od_set in Hin as [[= -> ->]|Hin]; [by right|].
    left. apply Hacc, elem_of_link_targets. eauto. }
  apply H. simpl. intros node. rewrite elem_of_link_targets.
  intros (? & ? & Hin & _). by apply elem_of_nil in Hin.
Qed.

(** ** Initialisation *)

Lemma init_link_gset_to_gmap num_pages (nodes : gset string) link :
  init_link num_pages (gset_to_gmap (1 / of_len num_pages) nodes) link =
  gset_to_gmap (1 / of_len num_pages) (nodes ∪ {[link]}).
Proof.
  unfold init_link. rewrite lookup_gset_to_gmap.
  destruct (decide (link ∈ nodes)) as [Hin|Hin].
  - rewrite option_guard_True by done. simpl. f_equal. set_solver.
  - rewrite option_guard_False by done. simpl.
    rewrite <-gset_to_gmap_union_singleton. f_equal. set_solver.
Qed.

Lemma init_links_gset_to_gmap num_pages (nodes : gset string) links :
  foldl (init_link num_pages) (gset_to_gmap (1 / of_len num_pages) nodes) links =
  gset_to_gmap (1 / of_len num_pages) (nodes ∪ list_to_set links).
Proof.
  revert nodes. induction links as [|link links IH]; intros nodes; simpl.
  - f_equal. set_solver.
  - rewrite init_link_gset_to_gmap, IH. f_equal. set_solver.
Qed.

Lemma initialize_page_ranks_uniform pages all_links :
  initialize_page_ranks pages all_links =
  gset_to_gmap (1 / of_len (num_pages_of all_links)) (all_links ∪ link_targets pages).
Proof.
  unfold initialize_page_ranks, link_targets.
  generalize (num_pages_of all_links) as n. intros n.
  revert all_links. induction pages as [|[page links] pages IH]; intros nodes; simpl.
  - f_equal. set_solver.
  - rewrite init_links_gset_to_gmap, IH. f_equal. set_solver.
Qed.

(** ** Arithmetic of scores *)

Lemma of_len_0 : of_len 0 = 0.
Proof. apply Z2Qc_inj_0. Qed.

Lemma of_len_S n : of_len (S n) = of_len n + 1.
Proof.
  unfold of_len. rewrite Nat2Z.inj_succ, <-Z.add_1_r, Z2Qc_inj_add.
  by rewrite Z2Qc_inj_1.
Qed.

Lemma of_len_nonneg n : 0 ≤ of_len n.
Proof.
  unfold of_len. rewrite <-Z2Qc_inj_0. apply (proj1 (Z2Qc_inj_le 0 (Z.of_nat n))). lia.
Qed.

Lemma of_len_pos n : (0 < n)%nat → 0 < of_len n.
Proof.
  intros Hn. unfold of_len. rewrite <-Z2Qc_inj_0.
  apply (proj1 (Z2Qc_inj_lt 0 (Z.of_nat n))). lia.
Qed.

Lemma Qcinv_nonneg x : 0 ≤ x → 0 ≤ / x.
Proof.
  intros Hx. destruct (decide (x = 0)) as [->|Hne]; [done|].
  apply Qclt_le_weak, Qcinv_pos. apply Qcle_lt_or_eq in Hx as [?|?]; [done|congruence].
Qed.

Lemma Qcdiv_nonneg x y : 0 ≤ x → 0 ≤ y → 0 ≤ x / y.
Proof. intros Hx Hy. apply Qcmult_nonneg_nonneg; [done|]. by apply Qcinv_nonneg. Qed.

Lemma damping_factor_bounds : 0 ≤ damping_factor ∧ 0 ≤ 1 - damping_factor.
Proof.
  split.
  - by apply (bool_decide_unpack (0 ≤ damping_factor)).
  - by apply (bool_decide_unpack (0 ≤ 1 - damping_factor)).
Qed.

(** ** Map phase *)

Lemma occurrences_cons node x l :
  occurrences node (x :: l) =
  if decide (x = node) then S (occurrences node l) else occurrences node l.
Proof. unfold occurrences. rewrite filter_cons. by destruct (decide (x = node)). Qed.

Lemma lookup_add_contribution share contributions link node :
  add_contribution share contributions link !! node =
  if decide (link = node) then Some (default 0 (contributions !! node) + share)
  else contributions !! node.
Proof.
  unfold add_contribution. destruct (decide (link = node)) as [->|Hne].
  - by rewrite lookup_insert_eq.
  - by rewrite lookup_insert_ne.
Qed.

Lemma add_contributions_total share links contributions node :
  default 0 (foldl (add_contribution share) contributions links !! node) =
  default 0 (contributions !! node) + of_len (occurrences node links) * share.
Proof.
  revert contributions. induction links as [|link links IH]; intros c; simpl.
  - unfold occurrences. simpl. rewrite of_len_0. ring.
  - rewrite IH, lookup_add_contribution, occurrences_cons.
    destruct (decide (link = node)); simpl; [|done].
    rewrite of_len_S. ring.
Qed.

Lemma add_contributions_is_Some share links contributions node :
  is_Some (foldl (add_contribution share) contributions links !! node) ↔
  is_Some (contributions !! node) ∨ node ∈ links.
Proof.
  revert contributions. induction links as [|link links IH]; intros c; simpl.
  - rewrite elem_of_nil. tauto.
  - rewrite IH, lookup_add_contribution, elem_of_cons.
    destruct (decide (link = node)) as [->|Hne].
    + split; [auto|]. intros _. left. eauto.
    + split; [tauto|]. intros [?|[?|?]]; [tauto|congruence|tauto].
Qed.

Lemma map_page_total page_ranks contributions entry node :
  default 0 (map_page page_ranks contributions entry !! node) =
  default 0 (contributions !! node) + contribution_of page_ranks entry node.
Proof.
  destruct entry as [page links]. unfold map_page, contribution_of. simpl.
  destruct (page_ranks !! page) as [rank|]; simpl; [|ring].
  case_bool_decide as Hlen.
  - apply add_contributions_total.
  - destruct links; [|simpl in Hlen; lia].
    unfold occurrences. simpl. rewrite of_len_0. ring.
Qed.

Lemma map_page_is_Some page_ranks contributions entry node :
  is_Some (map_page page_ranks contributions entry !! node) ↔
  is_Some (contributions !! node) ∨
  (is_Some (page_ranks !! entry.1) ∧ node ∈ entry.2).
Proof.
  destruct entry as [page links]. unfold map_page. simpl.
  destruct (page_ranks !! page) as [rank|].
  - case_bool_decide as Hlen.
    + rewrite add_contributions_is_Some. split; [|tauto].
      intros [?|?]; [by left|right]. split; [eauto|done].
    + destruct links; [|simpl in Hlen; lia]. rewrite elem_of_nil. tauto.
  - split; [auto|]. intros [?|[[? ?] _]]; [done|discriminate].
Qed.

Lemma sum_Qc_nil : sum_Qc [] = 0.
Proof. reflexivity. Qed.

Lemma sum_Qc_cons x l : sum_Qc (x :: l) = x + sum_Qc l.
Proof. reflexivity. Qed.

Lemma map_pages_total page_ranks pages contributions node :
  default 0 (foldl (map_page page_ranks) contributions pages !! node) =
  default 0 (contributions !! node) +
  sum_Qc ((λ entry, contribution_of page_ranks entry node) <$> pages).
Proof.
  revert contributions. induction pages as [|entry pages IH]; intros c.
  - rewrite fmap_nil, sum_Qc_nil. simpl. ring.
  - rewrite fmap_cons, sum_Qc_cons. simpl. rewrite IH, map_page_total. ring.
Qed.

Lemma map_pages_is_Some page_ranks pages contributions node :
  is_Some (foldl (map_page page_ranks) contributions pages !! node) ↔
  is_Some (contributions !! node) ∨ contributes page_ranks pages node.
Proof.
  unfold contributes.
  revert contributions. induction pages as [|entry pages IH]; intros c; simpl.
  - split; [auto|]. intros [?|(? & ? & Hin & _)]; [done|]. by apply elem_of_nil in Hin.
  - rewrite IH, map_page_is_Some. split.
    + intros [[?|[? ?]]|(page & links & ? & ? & ?)]; [by left| |].
      * right. exists entry.1, entry.2. destruct entry. split; [apply list_elem_of_here|done].
      * right. exists page, links. split; [by apply list_elem_of_further|done].
    + intros [?|(page & links & Hin & ? & ?)]; [by left; left|].
      apply elem_of_cons in Hin as [ <- | Hin]; [by left; right|].
      right. by exists page, links.
Qed.

Lemma map_page_no_contribution page_ranks contributions page links :
  links = [] ∨ page_ranks !! page = None →
  map_page page_ranks contributions (page, links) = contributions.
Proof.
  unfold map_page. intros [-> | ->]; [|done].
  by destruct (page_ranks !! page).
Qed.

Lemma map_page_rank_is_Some pages page_ranks node :
  is_Some (map_page_rank pages page_ranks !! node) ↔
  contributes page_ranks pages node.
Proof.
  unfold map_page_rank. rewrite map_pages_is_Some, lookup_empty.
  split; [|auto]. intros [[? ?]|?]; [discriminate|done].
Qed.

Lemma map_page_rank_total pages page_ranks node :
  default 0 (map_page_rank pages page_ranks !! node) =
  sum_Qc ((λ entry, contribution_of page_ranks entry node) <$> pages).
Proof.
  unfold map_page_rank. rewrite map_pages_total, lookup_empty. simpl. ring.
Qed.

Lemma map_page_rank_lookup_Some pages page_ranks node :
  contributes page_ranks pages node →
  map_page_rank pages page_ranks !! node =
  Some (sum_Qc ((λ entry, contribution_of page_ranks entry node) <$> pages)).
Proof.
  intros Hc. apply map_page_rank_is_Some in Hc as [c Hc].
  pose proof (map_page_rank_total pages page_ranks node) as Ht.
  rewrite Hc in Ht. simpl in Ht. by rewrite Hc, Ht.
Qed.

Lemma map_page_rank_lookup_None pages page_ranks node :
  ¬ contributes page_ranks pages node →
  map_page_rank pages page_ranks !! node = None.
Proof.
  intros Hc. apply eq_None_not_Some. by rewrite map_page_rank_is_Some.
Qed.

Lemma add_contributions_other share links contributions node :
  node ∉ links →
  foldl (add_contribution share) contributions links !! node = contributions !! node.
Proof.
  revert contributions. induction links as [|link links IH]; intros c Hn; [done|].
  apply not_elem_of_cons in Hn as [Hne Hn]. simpl.
  rewrite IH by done. rewrite lookup_add_contribution. by rewrite decide_False.
Qed.

Lemma map_page_other page_ranks contributions page links node :
  node ∉ links →
  map_page page_ranks contributions (page, links) !! node = contributions !! node.
Proof.
  intros Hn. unfold map_page. destruct (page_ranks !! page); [|done].
  case_bool_decide; [|done]. by apply add_contributions_other.
Qed.

Lemma map_page_rank_app pages pages' page_ranks :
  map_page_rank (pages ++ pages') page_ranks =
  foldl (map_page page_ranks) (map_page_rank pages page_ranks) pages'.
Proof. unfold map_page_rank. by rewrite foldl_app. Qed.

(** ** Reduce phase *)

Lemma reduce_page_rank_lookup contributions damping num_pages new_ranks node :
  reduce_page_rank contributions damping num_pages = Some new_ranks →
  new_ranks !! node =
  (λ contribution, (1 - damping) / of_len num_pages + damping * contribution)
    <$> contributions !! node.
Proof.
  unfold reduce_page_rank. case_bool_decide; [done|]. intros [= <-].
  rewrite map_lookup_zip_with, lookup_fmap.
  by destruct (contributions !! node).
Qed.

Lemma reduce_page_rank_Some contributions damping num_pages :
  (contributions ≠ ∅ → num_pages ≠ 0%nat) →
  is_Some (reduce_page_rank contributions damping num_pages).
Proof.
  intros Hn. unfold reduce_page_rank. case_bool_decide as H; [|eauto].
  destruct H as [-> Hne]. by destruct (Hn Hne).
Qed.

Lemma size_gset_to_gmap_nodes (v : Qc) (nodes : gset string) :
  size (gset_to_gmap v nodes) = size nodes.
Proof. by rewrite <-size_dom, dom_gset_to_gmap. Qed.

Lemma initial_size pages all_links :
  size (initialize_page_ranks pages all_links) = size (all_links ∪ link_targets pages).
Proof. by rewrite initialize_page_ranks_uniform, size_gset_to_gmap_nodes. Qed.

(** The number of pages the reduce phase divides by is positive as soon
    as the map phase produced a contribution. *)
Lemma contributions_num_pages pages all_links page_ranks :
  map_page_rank pages page_ranks ≠ ∅ →
  size (initialize_page_ranks pages all_links) ≠ 0%nat.
Proof.
  intros Hne. apply map_choose in Hne as (node & c & Hc).
  assert (contributes page_ranks pages node) as (page & links & Hin & _ & Hn).
  { apply map_page_rank_is_Some. eauto. }
  rewrite initial_size. intros Hsize. apply size_empty_inv in Hsize.
  assert (node ∈ all_links ∪ link_targets pages) as Hnode.
  { apply elem_of_union_r, elem_of_link_targets. eauto. }
  by rewrite (Hsize node) in Hnode.
Qed.

(** ** The iteration *)

Lemma iterate_page_rank_S pages num_pages iterations page_ranks :
  iterate_page_rank pages num_pages (S iterations) page_ranks =
  ranks ← iterate_page_rank pages num_pages iterations page_ranks;
  reduce_page_rank (map_page_rank pages ranks) damping_factor num_pages.
Proof.
  revert page_ranks. induction iterations as [|n IH]; intros page_ranks.
  - simpl. by destruct (reduce_page_rank _ _ _).
  - change (iterate_page_rank pages num_pages (S (S n)) page_ranks)
      with (new_ranks ← reduce_page_rank (map_page_rank pages page_ranks)
                                         damping_factor num_pages;
            iterate_page_rank pages num_pages (S n) new_ranks).
    destruct (reduce_page_rank (map_page_rank pages page_ranks) _ _) as [r|] eqn:E.
    + cbn [mbind option_bind]. rewrite IH. simpl. by rewrite E.
    + simpl. by rewrite E.
Qed.

Lemma calculate_page_rank_S pages all_links iterations :
  calculate_page_rank pages all_links (S iterations) =
  ranks ← calculate_page_rank pages all_links iterations;
  reduce_page_rank (map_page_rank pages ranks) damping_factor
                   (size (initialize_page_ranks pages all_links)).
Proof. apply iterate_page_rank_S. Qed.

Lemma calculate_page_rank_total pages all_links iterations :
  is_Some (calculate_page_rank pages all_links iterations).
Proof.
  induction iterations as [|n [ranks IH]].
  - by eexists.
  - rewrite calculate_page_rank_S, IH. simpl.
    apply reduce_page_rank_Some, contributions_num_pages.
Qed.

(** One more iteration is one more map phase and reduce phase on the
    table the previous iterations left. *)
Lemma calculate_page_rank_step pages all_links iterations :
  ∃ page_ranks new_ranks,
    calculate_page_rank pages all_links iterations = Some page_ranks ∧
    calculate_page_rank pages all_links (S iterations) = Some new_ranks ∧
    reduce_page_rank (map_page_rank pages page_ranks) damping_factor
      (size (all_links ∪ link_targets pages)) = Some new_ranks.
Proof.
  destruct (calculate_page_rank_total pages all_links iterations) as [ranks Hr].
  destruct (calculate_page_rank_total pages all_links (S iterations)) as [new Hn].
  exists ranks, new. split; [done|]. split; [done|].
  rewrite calculate_page_rank_S, Hr in Hn. simpl in Hn. by rewrite <-initial_size.
Qed.

(** ** Non-negative scores *)

Lemma sum_Qc_nonneg l : Forall (λ x, 0 ≤ x) l → 0 ≤ sum_Qc l.
Proof.
  induction 1 as [|x l Hx _ IH]; [done|].
  rewrite sum_Qc_cons. by apply Qcplus_nonneg_nonneg.
Qed.

Lemma contribution_of_nonneg page_ranks entry node :
  nonneg_table page_ranks → 0 ≤ contribution_of page_ranks entry node.
Proof.
  intros Hnn. unfold contribution_of.
  destruct (page_ranks !! entry.1) as [rank|] eqn:E; [|done].
  apply Qcmult_nonneg_nonneg; [apply of_len_nonneg|].
  apply Qcdiv_nonneg; [by eapply Hnn|apply of_len_nonneg].
Qed.

Lemma initialize_page_ranks_nonneg pages all_links :
  nonneg_table (initialize_page_ranks pages all_links).
Proof.
  intros node score. rewrite initialize_page_ranks_uniform.
  intros [_ <-]%lookup_gset_to_gmap_Some.
  apply Qcdiv_nonneg; [done|apply of_len_nonneg].
Qed.

Lemma map_page_rank_nonneg pages page_ranks :
  nonneg_table page_ranks → nonneg_table (map_page_rank pages page_ranks).
Proof.
  intros Hnn node c Hc.
  rewrite map_page_rank_lookup_Some in Hc by (apply map_page_rank_is_Some; eauto).
  injection Hc as <-. apply sum_Qc_nonneg, Forall_fmap, Forall_forall.
  intros entry _. by apply contribution_of_nonneg.
Qed.

Lemma reduce_page_rank_nonneg contributions num_pages new_ranks :
  nonneg_table contributions →
  reduce_page_rank contributions damping_factor num_pages = Some new_ranks →
  nonneg_table new_ranks.
Proof.
  intros Hnn Hred node score.
  rewrite (reduce_page_rank_lookup _ _ _ _ _ Hred).
  destruct (contributions !! node) as [c|] eqn:E; [|done]. intros [= <-].
  destruct damping_factor_bounds as [Hd Hd'].
  apply Qcplus_nonneg_nonneg.
  - apply Qcdiv_nonneg; [done|apply of_len_nonneg].
  - apply Qcmult_nonneg_nonneg; [done|by eapply Hnn].
Qed.

(** ** The claims on the graph builder and the rank engine *)

(** C4, as the code has it: the set [read_html_files] returns beside the
    graph holds exactly the identifiers that occur as a link target in
    some file of the corpus (each once, it is a set); the name of a
    document is in it only when some document links to it. *)
Theorem read_html_files_all_links files node :
  node ∈ all_links_of (read_html_files files) ↔
  ∃ f, f ∈ files ∧ node ∈ hrefs f.
Proof.
  unfold read_html_files. rewrite all_links_foldl. simpl.
  rewrite elem_of_empty. tauto.
Qed.

(** C4, as the claim states it (every document identifier is in the
    set), fails on a corpus of one document without links: the set is
    empty. *)
Lemma read_html_files_document_ids_counterexample :
  ¬ (∀ files node,
       node ∈ all_links_of (read_html_files files) ↔
       ∃ f, f ∈ files ∧ (node = page_name f ∨ node ∈ hrefs f)).
Proof.
  intros H.
  specialize (H [HtmlFile "a.html" "" []] "a.html"%string).
  destruct H as [_ H].
  assert ("a.html"%string ∈ all_links_of (read_html_files [HtmlFile "a.html" "" []])) as Hin.
  { apply H. eexists. split; [apply list_elem_of_here|]. by left. }
  apply all_links_foldl in Hin as [Hin|(f & Hf & Hn)]; [by apply elem_of_empty in Hin|].
  apply list_elem_of_singleton in Hf as ->. simpl in Hn. by apply elem_of_nil in Hn.
Qed.

(** C3: with an iteration count of 0 the rank computation returns the
    initialisation table: every node of [all_links] (and every link
    target of [pages]) has the score [1/N], where [N] is the size of
    [all_links], or 1 when [all_links] is empty. *)
Theorem calculate_page_rank_zero_iterations pages all_links :
  calculate_page_rank pages all_links 0 =
    Some (initialize_page_ranks pages all_links) ∧
  initialize_page_ranks pages all_links =
    gset_to_gmap (1 / of_len (num_pages_of all_links))
                 (all_links ∪ link_targets pages) ∧
  (∀ node, node ∈ all_links →
     initialize_page_ranks pages all_links !! node =
     Some (1 / of_len (num_pages_of all_links))) ∧
  (all_links = ∅ → num_pages_of all_links = 1%nat) ∧
  (all_links ≠ ∅ → num_pages_of all_links = size all_links).
Proof.
  split; [done|]. split; [apply initialize_page_ranks_uniform|].
  split; [|split].
  - intros node Hin. rewrite initialize_page_ranks_uniform.
    apply lookup_gset_to_gmap_Some. split; [|done]. by apply elem_of_union_l.
  - intros ->. unfold num_pages_of. by rewrite decide_True.
  - intros Hne. unfold num_pages_of. by rewrite decide_False.
Qed.

(** C2: the map phase is the fold of [map_page] over the documents; a
    document that has a score and at least one link adds
    [score / outDegree] to the accumulated contribution of a node once
    per occurrence of the node in its links and leaves the other nodes
    alone; a document without links or without a score leaves the
    contributions as they are, and the map phase is the same without it.
    A node's accumulated contribution is the sum of what the documents
    hand to it, and a node no scored document links to has none. *)
Theorem map_phase_contributions pages page_ranks :
  (∀ contributions page links rank node,
     page_ranks !! page = Some rank → links ≠ [] →
     default 0 (map_page page_ranks contributions (page, links) !! node) =
       default 0 (contributions !! node) +
       of_len (occurrences node links) * (rank / of_len (length links)) ∧
     (node ∈ links →
        is_Some (map_page page_ranks contributions (page, links) !! node)) ∧
     (node ∉ links →
        map_page page_ranks contributions (page, links) !! node =
        contributions !! node)) ∧
  (∀ contributions page links,
     links = [] ∨ page_ranks !! page = None →
     map_page page_ranks contributions (page, links) = contributions) ∧
  (∀ before page links after,
     pages = before ++ (page, links) :: after →
     links = [] ∨ page_ranks !! page = None →
     map_page_rank pages page_ranks = map_page_rank (before ++ after) page_ranks) ∧
  (∀ node,
     contributes page_ranks pages node →
     map_page_rank pages page_ranks !! node =
     Some (sum_Qc ((λ entry, contribution_of page_ranks entry node) <$> pages))) ∧
  (∀ node,
     ¬ contributes page_ranks pages node →
     map_page_rank pages page_ranks !! node = None).
Proof.
  split; [|split; [|split; [|split]]].
  - intros c page links rank node Hrank Hlinks. split; [|split].
    + rewrite map_page_total. unfold contribution_of. simpl. by rewrite Hrank.
    + intros Hin. apply map_page_is_Some. right. simpl. split; [eauto|done].
    + apply map_page_other.
  - intros c page links. apply map_page_no_contribution.
  - intros before page links after -> Hno.
    rewrite !map_page_rank_app. cbn [foldl]. by rewrite map_page_no_contribution.
  - intros node. apply map_page_rank_lookup_Some.
  - intros node. apply map_page_rank_lookup_None.
Qed.

(** C1: one more iteration yields the table of the reduce phase on the
    contributions of the map phase on the previous table.  Its domain is
    exactly the nodes that received a contribution; such a node is
    mapped to [(1 - 0.85) / N + 0.85 * (sum of its contributions)],
    where [N] is the number of nodes of the initial table; a node
    without a contribution is absent, whatever score it had. *)
Theorem reduce_phase_rank_table pages all_links iterations :
  ∃ page_ranks new_ranks,
    calculate_page_rank pages all_links iterations = Some page_ranks ∧
    calculate_page_rank pages all_links (S iterations) = Some new_ranks ∧
    damping_factor = Q2Qc (85 # 100) ∧
    (link_targets pages ⊆ all_links →
       size (all_links ∪ link_targets pages) = size all_links) ∧
    ∀ node,
      (node ∈ dom new_ranks ↔ contributes page_ranks pages node) ∧
      (contributes page_ranks pages node →
         new_ranks !! node =
         Some ((1 - damping_factor) / of_len (size (all_links ∪ link_targets pages)) +
               damping_factor *
               sum_Qc ((λ entry, contribution_of page_ranks entry node) <$> pages))) ∧
      (¬ contributes page_ranks pages node → new_ranks !! node = None).
Proof.
  destruct (calculate_page_rank_step pages all_links iterations)
    as (ranks & new & Hr & Hn & Hred).
  exists ranks, new. split; [done|]. split; [done|]. split; [done|]. split.
  { intros Hsub. f_equal. set_solver. }
  intros node. pose proof (reduce_page_rank_lookup _ _ _ _ node Hred) as Hl.
  split; [|split].
  - rewrite elem_of_dom, Hl, <-map_page_rank_is_Some. apply fmap_is_Some.
  - intros Hc. by rewrite Hl, map_page_rank_lookup_Some.
  - intros Hc. by rewrite Hl, map_page_rank_lookup_None.
Qed.

Lemma contributes_mono pages (page_ranks page_ranks' : gmap string Qc) node :
  dom page_ranks ⊆ dom page_ranks' →
  contributes page_ranks pages node → contributes page_ranks' pages node.
Proof.
  intros Hsub (page & links & Hin & Hs & Hn). exists page, links.
  split; [done|]. split; [|done]. apply elem_of_dom, Hsub, elem_of_dom, Hs.
Qed.

Lemma reduce_map_dom pages page_ranks num_pages new_ranks node :
  reduce_page_rank (map_page_rank pages page_ranks) damping_factor num_pages
    = Some new_ranks →
  node ∈ dom new_ranks ↔ contributes page_ranks pages node.
Proof.
  intros Hred. rewrite elem_of_dom, (reduce_page_rank_lookup _ _ _ _ node Hred).
  rewrite <-map_page_rank_is_Some. apply fmap_is_Some.
Qed.

Lemma calculate_page_rank_dom_shrinks pages all_links iterations :
  ∃ page_ranks new_ranks,
    calculate_page_rank pages all_links iterations = Some page_ranks ∧
    calculate_page_rank pages all_links (S iterations) = Some new_ranks ∧
    dom new_ranks ⊆ dom page_ranks.
Proof.
  induction iterations as [|n (ranks0 & ranks1 & H0 & H1 & Hsub)].
  - destruct (calculate_page_rank_step pages all_links 0)
      as (ranks & new & Hr & Hn & Hred).
    exists ranks, new. split; [done|]. split; [done|].
    intros node Hnode. apply (reduce_map_dom _ _ _ _ _ Hred) in Hnode.
    destruct Hnode as (page & links & Hin & _ & Hn').
    injection Hr as <-. rewrite initialize_page_ranks_uniform, dom_gset_to_gmap.
    apply elem_of_union_r, elem_of_link_targets. eauto.
  - destruct (calculate_page_rank_step pages all_links (S n))
      as (ranks & new & Hr & Hn & Hred).
    exists ranks, new. split; [done|]. split; [done|].
    rewrite H1 in Hr. injection Hr as <-.
    destruct (calculate_page_rank_step pages all_links n)
      as (ranks' & new' & Hr' & Hn' & Hred').
    rewrite H0 in Hr'. injection Hr' as <-. rewrite H1 in Hn'. injection Hn' as <-.
    intros node Hnode. apply (reduce_map_dom _ _ _ _ _ Hred) in Hnode.
    apply (reduce_map_dom _ _ _ _ _ Hred').
    by apply (contributes_mono _ ranks1 ranks0).
Qed.

(** C5, as the code has it: after an iteration a node has an entry
    exactly when it received a contribution in that iteration's map
    phase, that is when a document with an entry in the previous table
    links to it; a node without one is dropped, and the table never gains
    a node: its nodes are among those of the previous table. *)
Theorem rank_table_retention pages all_links iterations :
  ∃ page_ranks new_ranks,
    calculate_page_rank pages all_links iterations = Some page_ranks ∧
    calculate_page_rank pages all_links (S iterations) = Some new_ranks ∧
    (∀ node,
       is_Some (new_ranks !! node) ↔
       ∃ page links, (page, links) ∈ pages ∧ is_Some (page_ranks !! page) ∧
                     node ∈ links) ∧
    dom new_ranks ⊆ dom page_ranks.
Proof.
  destruct (calculate_page_rank_dom_shrinks pages all_links iterations)
    as (ranks & new & Hr & Hn & Hsub).
  exists ranks, new. split; [done|]. split; [done|]. split; [|done].
  intros node.
  destruct (calculate_page_rank_step pages all_links iterations)
    as (ranks' & new' & Hr' & Hn' & Hred).
  rewrite Hr in Hr'. injection Hr' as <-. rewrite Hn in Hn'. injection Hn' as <-.
  rewrite <-elem_of_dom. apply (reduce_map_dom _ _ _ _ _ Hred).
Qed.

(** C5, as the claim states it (a node with an initial score keeps an
    entry after every iteration), fails on the graph of one document
    ["a"] linking to ["b"]: ["a"] has an initial score and no entry after
    the first iteration. *)
Lemma rank_table_retention_counterexample :
  ¬ (∀ pages all_links iterations node,
       is_Some (initialize_page_ranks pages all_links !! node) →
       ∃ page_ranks,
         calculate_page_rank pages all_links iterations = Some page_ranks ∧
         is_Some (page_ranks !! node)).
Proof.
  intros H.
  destruct (H [("a", ["b"])]%string ({["a"; "b"]} : gset string)%string 1%nat "a"%string)
    as (new & Hnew & Hnode).
  - rewrite initialize_page_ranks_uniform. eexists.
    apply lookup_gset_to_gmap_Some. split; [|done].
    apply elem_of_union_l. set_solver.
  - destruct (calculate_page_rank_step [("a", ["b"])]%string {["a"; "b"]}%string 0)
      as (ranks & new' & _ & Hnew' & Hred).
    rewrite Hnew in Hnew'. injection Hnew' as <-.
    apply elem_of_dom, (reduce_map_dom _ _ _ _ _ Hred) in Hnode.
    destruct Hnode as (page & links & Hin & _ & Ha).
    apply list_elem_of_singleton in Hin. injection Hin as -> ->.
    apply list_elem_of_singleton in Ha. discriminate.
Qed.

(** C9: the rank computation returns a table for every input and every
    iteration count, and every score of that table is non-negative: at
    initialisation (0 iterations) and after each iteration. *)
Theorem calculate_page_rank_nonneg pages all_links iterations :
  ∃ page_ranks,
    calculate_page_rank pages all_links iterations = Some page_ranks ∧
    ∀ node score, page_ranks !! node = Some score → 0 ≤ score.
Proof.
  induction iterations as [|n (ranks & Hr & Hnn)].
  - eexists. split; [done|]. apply initialize_page_ranks_nonneg.
  - destruct (calculate_page_rank_step pages all_links n)
      as (ranks' & new & Hr' & Hn & Hred).
    rewrite Hr in Hr'. injection Hr' as <-.
    exists new. split; [done|].
    eapply reduce_page_rank_nonneg; [|exact Hred].
    by apply map_page_rank_nonneg.
Qed.

(** ** A single page that links to itself *)

Lemma self_link_initial node :
  initialize_page_ranks [(node, [node])] {[node]} = {[node := 1]}.
Proof.
  rewrite initialize_page_ranks_uniform.
  assert (num_pages_of {[node]} = 1%nat) as ->.
  { unfold num_pages_of. rewrite decide_False by set_solver. apply size_singleton. }
  assert ({[node]} ∪ link_targets [(node, [node])] = ({[node]} : gset string)) as ->.
  { unfold link_targets. simpl. set_solver. }
  rewrite gset_to_gmap_singleton. f_equal.
Qed.

Lemma self_link_map node (score : Qc) :
  map_page_rank [(node, [node])] {[node := score]} = {[node := 0 + score / of_len 1]}.
Proof.
  unfold map_page_rank. simpl. rewrite lookup_singleton_eq. simpl.
  unfold add_contribution. rewrite lookup_empty. simpl. apply insert_empty.
Qed.

Lemma self_link_step node :
  reduce_page_rank (map_page_rank [(node, [node])] {[node := 1]}) damping_factor 1 =
  Some {[node := 1]}.
Proof.
  rewrite self_link_map. unfold reduce_page_rank.
  rewrite bool_decide_false by (intros [? _]; done).
  rewrite map_fmap_singleton, map_zip_with_singleton. do 2 f_equal.
  by apply Qc_is_canon.
Qed.

(** The same arithmetic in binary64, the floats of the code: [1 - 0.85]
    is computed without rounding, and the sum is the float [1.0]. *)
#[warnings="-inexact-float"]
Lemma self_link_binary64 :
  ((1 - 0.85) / 1 + 0.85 * (0 + 1 / 1))%float = 1%float.
Proof. vm_compute. reflexivity. Qed.

(** C8: on the graph of a single node whose only link is to itself the
    rank computation returns, after the first iteration and after every
    further one, the table that gives the node the score
    [(1 - 0.85)/1 + 0.85 * 1 = 1]. *)
Theorem single_self_link_rank node iterations :
  calculate_page_rank [(node, [node])] {[node]} (S iterations) =
    Some {[node := 1]} ∧
  (1 - damping_factor) / 1 + damping_factor * 1 = 1.
Proof.
  split; [|by apply Qc_is_canon].
  assert (∀ n, calculate_page_rank [(node, [node])] {[node]} n = Some {[node := 1]}) as H.
  { induction n as [|n IH].
    - unfold calculate_page_rank. simpl. by rewrite self_link_initial.
    - rewrite calculate_page_rank_S, IH. simpl.
      rewrite self_link_initial, map_size_singleton. apply self_link_step. }
  apply H.
Qed.

(** ** Insertion-ordered dictionaries *)

Lemma od_add_keys k x d :
  (od_add k x d).*1 = if decide (k ∈ d.*1) then d.*1 else d.*1 ++ [k].
Proof.
  induction d as [|[k' v'] d IH].
  - cbn [od_add fmap list_fmap app]. rewrite decide_False; [done|]. apply not_elem_of_nil.
  - cbn [od_add fmap list_fmap fst]. destruct (decide (k' = k)) as [->|Hne].
    + rewrite decide_True; [done|]. apply list_elem_of_here.
    + cbn [fmap list_fmap fst]. change (list_fmap _ _ fst) with (fmap (M:=list) (@fst string Qc)).
      rewrite IH. destruct (decide (k ∈ d.*1)) as [Hin|Hin].
      * rewrite decide_True; [done|]. by apply list_elem_of_further.
      * rewrite decide_False; [done|]. rewrite elem_of_cons. naive_solver.
Qed.

Lemma od_add_NoDup k x d : NoDup d.*1 → NoDup (od_add k x d).*1.
Proof.
  intros Hd. rewrite od_add_keys. case_decide as Hin; [done|].
  apply NoDup_app. split; [done|]. split; [|apply NoDup_singleton].
  intros y Hy ->%list_elem_of_singleton. done.
Qed.

Lemma od_get_add k x d k' :
  od_get k' (od_add k x d) =
  if decide (k = k') then Some (default 0 (od_get k d) + x) else od_get k' d.
Proof.
  induction d as [|[k0 v0] d IH]; simpl.
  - destruct (decide (k = k')); [done|]. done.
  - destruct (decide (k0 = k)) as [->|Hne]; simpl.
    + destruct (decide (k = k')); [done|]. done.
    + rewrite IH. destruct (decide (k0 = k')) as [->|Hne'].
      * by rewrite decide_False.
      * done.
Qed.

Lemma od_get_is_Some {V} k (d : list (string * V)) :
  is_Some (od_get k d) ↔ k ∈ d.*1.
Proof.
  induction d as [|[k0 v0] d IH]; simpl.
  - rewrite elem_of_nil. split; [intros [? ?]; done|done].
  - rewrite elem_of_cons. destruct (decide (k0 = k)) as [->|Hne].
    + split; [auto|eauto].
    + rewrite IH. naive_solver.
Qed.

Lemma od_get_elem_of {V} k v (d : list (string * V)) :
  NoDup d.*1 → (k, v) ∈ d ↔ od_get k d = Some v.
Proof.
  induction d as [|[k0 v0] d IH]; simpl; intros Hd.
  - rewrite elem_of_nil. naive_solver.
  - apply NoDup_cons in Hd as [Hk0 Hd]. rewrite elem_of_cons, (IH Hd).
    destruct (decide (k0 = k)) as [->|Hne].
    + split; [|naive_solver]. intros [[= ->]|Hget]; [done|].
      destruct Hk0. apply od_get_is_Some. eauto.
    + naive_solver.
Qed.

(** ** Sorting *)

Lemma insert_desc_perm x l : insert_desc x l ≡ₚ x :: l.
Proof.
  induction l as [|y l IH]; simpl; [done|].
  case_bool_decide; [|done]. rewrite IH. apply Permutation_swap.
Qed.

Lemma sorted_desc_perm l : sorted_desc l ≡ₚ l.
Proof.
  induction l as [|x l IH]; simpl; [done|].
  by rewrite insert_desc_perm, IH.
Qed.

Lemma insert_desc_descending x l : descending l → descending (insert_desc x l).
Proof.
  unfold descending. induction 1 as [|y l Hl IH Hy]; simpl.
  - by repeat constructor.
  - case_bool_decide as Hlt.
    + constructor; [done|]. rewrite insert_desc_perm.
      constructor; [by apply Qclt_le_weak|done].
    + apply Qcle_ngt in Hlt. constructor; [by constructor|].
      constructor; [done|]. eapply Forall_impl; [exact Hy|].
      intros z Hz. simpl in *. by etrans.
Qed.

Lemma sorted_desc_descending l : descending (sorted_desc l).
Proof.
  induction l as [|x l IH]; simpl; [constructor|].
  by apply insert_desc_descending.
Qed.

(** ** The results table of [search] *)

Section SearchProperties.
Variable lower unidecode : string → string.
Variable inverted_index : gmap string (list string).
Variable page_ranks : gmap string Qc.

Lemma add_postings_NoDup posting results :
  NoDup results.*1 → NoDup (foldl (add_posting page_ranks) results posting).*1.
Proof.
  revert results. induction posting as [|p posting IH]; intros results Hr; [done|].
  simpl. apply IH. by apply od_add_NoDup.
Qed.

Lemma add_postings_keys posting results page :
  page ∈ (foldl (add_posting page_ranks) results posting).*1 ↔
  page ∈ results.*1 ∨ page ∈ posting.
Proof.
  revert results. induction posting as [|p posting IH]; intros results.
  - simpl. rewrite elem_of_nil. tauto.
  - cbn [foldl]. rewrite IH. unfold add_posting. rewrite od_add_keys, elem_of_cons.
    case_decide as Hin.
    + split; [tauto|]. intros [?|[->|?]]; tauto.
    + rewrite elem_of_app, list_elem_of_singleton. split; [tauto|].
      intros [?|[?|?]]; tauto.
Qed.

Lemma add_postings_total posting results page :
  default 0 (od_get page (foldl (add_posting page_ranks) results posting)) =
  default 0 (od_get page results) +
  of_len (occurrences page posting) * default 0 (page_ranks !! page).
Proof.
  revert results. induction posting as [|p posting IH]; intros results.
  - unfold occurrences. simpl. rewrite of_len_0. ring.
  - cbn [foldl]. rewrite IH. unfold add_posting.
    rewrite od_get_add, occurrences_cons.
    destruct (decide (p = page)) as [->|Hne]; [|done].
    simpl. rewrite of_len_S. ring.
Qed.

Lemma add_terms_NoDup terms results :
  NoDup results.*1 →
  NoDup (foldl (add_term inverted_index page_ranks) results terms).*1.
Proof.
  revert results. induction terms as [|term terms IH]; intros results Hr; [done|].
  cbn [foldl]. apply IH. unfold add_term.
  destruct (inverted_index !! term); [|done]. by apply add_postings_NoDup.
Qed.

Lemma add_terms_keys terms results page :
  page ∈ (foldl (add_term inverted_index page_ranks) results terms).*1 ↔
  page ∈ results.*1 ∨ matches inverted_index terms page.
Proof.
  unfold matches. revert results. induction terms as [|term terms IH]; intros results.
  - simpl. split; [auto|]. intros [?|(? & ? & Hin & _)]; [done|].
    by apply elem_of_nil in Hin.
  - cbn [foldl]. rewrite IH. unfold add_term.
    destruct (inverted_index !! term) as [posting|] eqn:E.
    + rewrite add_postings_keys. split.
      * intros [[?|?]|(t & p & ? & ? & ?)]; [by left| |].
        -- right. exists term, posting. split; [apply list_elem_of_here|done].
        -- right. exists t, p. split; [by apply list_elem_of_further|done].
      * intros [?|(t & p & Hin & Hp & ?)]; [by left; left|].
        apply elem_of_cons in Hin as [-> | Hin].
        -- rewrite E in Hp. injection Hp as <-. by left; right.
        -- right. by exists t, p.
    + split.
      * intros [?|(t & p & ? & ? & ?)]; [by left|].
        right. exists t, p. split; [by apply list_elem_of_further|done].
      * intros [?|(t & p & Hin & Hp & ?)]; [by left|].
        apply elem_of_cons in Hin as [-> | Hin]; [congruence|].
        right. by exists t, p.
Qed.

Lemma add_terms_total terms results page :
  default 0 (od_get page (foldl (add_term inverted_index page_ranks) results terms)) =
  default 0 (od_get page results) + query_score terms inverted_index page_ranks page.
Proof.
  unfold query_score. revert results. induction terms as [|term terms IH]; intros results.
  - rewrite fmap_nil, sum_Qc_nil. simpl. ring.
  - rewrite fmap_cons, sum_Qc_cons. cbn [foldl]. rewrite IH.
    unfold add_term, term_score.
    destruct (inverted_index !! term) as [posting|].
    + rewrite add_postings_total. ring.
    + ring.
Qed.

Lemma search_results_NoDup query :
  NoDup (search_results lower unidecode query inverted_index page_ranks).*1.
Proof. apply add_terms_NoDup. constructor. Qed.

Lemma search_results_keys query page :
  page ∈ (search_results lower unidecode query inverted_index page_ranks).*1 ↔
  matches inverted_index (query_terms lower unidecode query) page.
Proof.
  unfold search_results. rewrite add_terms_keys. simpl. rewrite elem_of_nil. tauto.
Qed.

Lemma search_results_total query page :
  default 0 (od_get page
    (search_results lower unidecode query inverted_index page_ranks)) =
  query_score (query_terms lower unidecode query) inverted_index page_ranks page.
Proof. unfold search_results. rewrite add_terms_total. simpl. ring. Qed.

Lemma elem_of_search query entry :
  entry ∈ search lower unidecode query inverted_index page_ranks ↔
  entry ∈ search_results lower unidecode query inverted_index page_ranks ∧
  0 < entry.2.
Proof.
  unfold search. rewrite sorted_desc_perm, list_elem_of_filter. tauto.
Qed.

Lemma search_NoDup query :
  NoDup (search lower unidecode query inverted_index page_ranks).*1.
Proof.
  unfold search. rewrite sorted_desc_perm.
  apply NoDup_fmap_fst.
  - intros k v v' Hv Hv'. apply list_elem_of_filter in Hv as [_ Hv]. apply list_elem_of_filter in Hv' as [_ Hv'].
    apply od_get_elem_of in Hv, Hv'; [congruence|apply search_results_NoDup..].
  - apply NoDup_filter. eapply NoDup_fmap_1, search_results_NoDup.
Qed.

Lemma elem_of_search_score query page score :
  (page, score) ∈ search lower unidecode query inverted_index page_ranks ↔
  score = query_score (query_terms lower unidecode query) inverted_index page_ranks page ∧
  0 < score.
Proof.
  rewrite elem_of_search. simpl.
  rewrite od_get_elem_of by apply search_results_NoDup.
  pose proof (search_results_total query page) as Ht.
  destruct (od_get page _) as [s|]; simpl in Ht.
  - split; [intros [[= ->] ?]; by split|]. intros [-> ?]. by rewrite Ht.
  - split; [intros [? _]; done|]. intros [-> Hpos]. rewrite <-Ht in Hpos.
    by apply Qclt_not_eq in Hpos.
Qed.

End SearchProperties.

(** ** The claims on the query engine *)

Lemma add_terms_unmatched inverted_index page_ranks terms results :
  (∀ term, term ∈ terms → inverted_index !! term = None) →
  foldl (add_term inverted_index page_ranks) results terms = results.
Proof.
  induction terms as [|term terms IH]; intros Hnone; [done|].
  cbn [foldl]. unfold add_term at 2. rewrite (Hnone term) by apply list_elem_of_here.
  apply IH. intros t Ht. by apply Hnone, list_elem_of_further.
Qed.

(** C6, as the code has it: a document is returned with a score exactly
    when that score is its total over the query terms and is positive,
    where the total adds, for every occurrence of a term in the
    normalised query whose term is in the index, the rank of the document
    (0 without one) once per occurrence of the document in the posting
    list of the term.  A term written twice in the query counts twice. *)
Theorem search_score lower unidecode query inverted_index page_ranks page score :
  (page, score) ∈ search lower unidecode query inverted_index page_ranks ↔
  score = sum_Qc ((λ term,
                     match inverted_index !! term with
                     | Some posting =>
                         of_len (occurrences page posting) *
                         default 0 (page_ranks !! page)
                     | None => 0
                     end) <$> query_terms lower unidecode query) ∧
  0 < score.
Proof. apply elem_of_search_score. Qed.

(** Whatever the two library functions do elsewhere, when they leave the
    word ["a"] alone the query ["a a"] scores a document twice its rank. *)
Lemma repeated_term_counts_twice lower unidecode :
  unidecode (lower "a"%string) = "a"%string →
  ("d"%string, 1) ∈ search lower unidecode "a a"
                      {[ "a"%string := ["d"%string] ]}
                      {[ "d"%string := Q2Qc (1 # 2) ]}.
Proof.
  intros Ha. apply elem_of_search_score. split; [|done].
  unfold query_terms. change (split "a a") with ["a"; "a"]%string.
  rewrite !fmap_cons, fmap_nil, Ha. by apply Qc_is_canon.
Qed.

(** C6, as the claim states it (the sum ranges over the distinct query
    terms), fails for the query ["a a"] on the index [{a: [d]}] with
    rank 1/2 for [d]: [search] returns [d] with score 1, the sum over the
    distinct terms is 1/2. *)
Lemma search_distinct_terms_counterexample :
  ¬ (∀ query inverted_index page_ranks page score,
       (page, score) ∈ search ascii_lower ascii_unidecode query
                         inverted_index page_ranks →
       score = query_score
                 (remove_dups (query_terms ascii_lower ascii_unidecode query))
                 inverted_index page_ranks page).
Proof.
  intros H.
  specialize (H _ _ _ _ _ (repeated_term_counts_twice ascii_lower ascii_unidecode eq_refl)).
  apply (f_equal this) in H. vm_compute in H. discriminate.
Qed.

(** C7: [search] returns exactly the entries of the results table whose
    total is greater than 0, the table holding the documents matched by a
    query term; the returned list is in non-increasing order of score;
    the empty query, and a query none of whose terms is in the index,
    return the empty list. *)
Theorem search_filtered_descending lower unidecode query inverted_index page_ranks :
  (∀ page score,
     (page, score) ∈ search lower unidecode query inverted_index page_ranks ↔
     (page, score) ∈ search_results lower unidecode query inverted_index page_ranks ∧
     0 < score) ∧
  (∀ page,
     page ∈ (search_results lower unidecode query inverted_index page_ranks).*1 ↔
     matches inverted_index (query_terms lower unidecode query) page) ∧
  descending (search lower unidecode query inverted_index page_ranks) ∧
  search lower unidecode "" inverted_index page_ranks = [] ∧
  ((∀ term, term ∈ query_terms lower unidecode query →
            inverted_index !! term = None) →
   search lower unidecode query inverted_index page_ranks = []).
Proof.
  split; [|split; [|split; [|split]]].
  - intros page score. apply (elem_of_search _ _ _ _ _ (page, score)).
  - apply search_results_keys.
  - apply sorted_desc_descending.
  - done.
  - intros Hnone. unfold search, search_results.
    by rewrite add_terms_unmatched.
Qed.

(** C10: no document identifier occurs twice in the list [search]
    returns. *)
Theorem search_no_duplicate_document lower unidecode query inverted_index page_ranks :
  NoDup (search lower unidecode query inverted_index page_ranks).*1.
Proof. apply search_NoDup. Qed.

(** ** Worked examples *)

(** Scores are shown as the fraction [this] of the canonical rational.
    The query of the first example is the one of the specification: both
    terms match [doc1], one matches [doc2]. *)
Lemma example_search_two_terms :
  (λ entry, (entry.1, this entry.2)) <$>
    search ascii_lower ascii_unidecode "Search ENGINE"
      {[ "search"%string := ["doc1"; "doc2"]%string;
         "engine"%string := ["doc1"%string] ]}
      {[ "doc1"%string := Q2Qc (3 # 5); "doc2"%string := Q2Qc (3 # 10) ]}
  = [("doc1"%string, (6 # 5)%Q); ("doc2"%string, (3 # 10)%Q)].
Proof. vm_compute. reflexivity. Qed.

Lemma example_search_repeated_term :
  (λ entry, (entry.1, this entry.2)) <$>
    search ascii_lower ascii_unidecode "a a"
      {[ "a"%string := ["d"%string] ]} {[ "d"%string := Q2Qc (1 # 2) ]}
  = [("d"%string, (1 # 1)%Q)].
Proof. vm_compute. reflexivity. Qed.

Lemma example_source_dropped :
  (fmap (M:=gmap string) this) <$>
    calculate_page_rank [("a", ["b"])]%string {["a"; "b"]}%string 1
  = Some {[ "b"%string := (1 # 2)%Q ]}.
Proof. vm_compute. reflexivity. Qed.

Lemma example_two_cycle :
  (fmap (M:=gmap string) this) <$>
    calculate_page_rank [("a", ["b"]); ("b", ["a"])]%string {["a"; "b"]}%string 10
  = Some {[ "a"%string := (1 # 2)%Q; "b"%string := (1 # 2)%Q ]}.
Proof. vm_compute. reflexivity. Qed.

Lemma example_no_links :
  read_html_files [HtmlFile "a.html" "" []] =
  Corpus [("a.html"%string, [])] [("a.html", "")]%string ∅.
Proof. reflexivity. Qed.

(** * Further properties of the code *)

(** ** [str.split] *)

Lemma has_space_app s1 s2 :
  has_space (s1 +:+ s2) = has_space s1 || has_space s2.
Proof.
  induction s1 as [|c s1 IH]; [done|].
  change (String c s1 +:+ s2) with (String c (s1 +:+ s2)).
  cbn [has_space]. by rewrite IH, orb_assoc.
Qed.

Lemma string_app_nil_r s : s +:+ EmptyString = s.
Proof.
  induction s as [|c s IH]; [done|].
  change (String c s +:+ EmptyString) with (String c (s +:+ EmptyString)).
  by rewrite IH.
Qed.

Lemma string_app_snoc word c s :
  (word +:+ String c EmptyString) +:+ s = word +:+ String c s.
Proof.
  induction word as [|a word IH]; [done|].
  change ((String a word +:+ String c EmptyString) +:+ s)
    with (String a ((word +:+ String c EmptyString) +:+ s)).
  by rewrite IH.
Qed.

Lemma split_from_no_space word s :
  has_space s = false → split_from word s = flush_word (word +:+ s).
Proof.
  revert word. induction s as [|c s IH]; intros word Hs; simpl.
  - by rewrite string_app_nil_r.
  - simpl in Hs. apply orb_false_iff in Hs as [Hc Hs].
    rewrite Hc, IH by done. by rewrite string_app_snoc.
Qed.

Lemma split_from_words word s :
  has_space word = false →
  Forall (λ w, w ≠ EmptyString ∧ has_space w = false) (split_from word s).
Proof.
  revert word. induction s as [|c s IH]; intros word Hw; simpl.
  - destruct word; simpl; [constructor|]. by repeat constructor.
  - destruct (is_space c) eqn:Hc.
    + apply Forall_app. split; [|by apply IH].
      destruct word; simpl; [constructor|]. by repeat constructor.
    + apply IH. rewrite has_space_app, Hw. simpl. by rewrite Hc.
Qed.

Lemma split_from_sep word s1 c s2 :
  is_space c = true →
  split_from word (s1 +:+ String c s2) = split_from word s1 ++ split s2.
Proof.
  intros Hc. revert word. induction s1 as [|a s1 IH]; intros word; simpl.
  - by rewrite Hc.
  - destruct (is_space a); [|apply IH]. by rewrite IH, (assoc_L (++)).
Qed.

Lemma split_word word :
  word ≠ EmptyString → has_space word = false → split word = [word].
Proof.
  intros Hne Hs. unfold split. rewrite split_from_no_space by done.
  simpl. by destruct word.
Qed.

Lemma split_word_again query word :
  word ∈ split query → split word = [word].
Proof.
  intros Hin.
  pose proof (split_from_words EmptyString query eq_refl) as Hall.
  rewrite Forall_forall in Hall. destruct (Hall word Hin). by apply split_word.
Qed.

(** The words [split] returns are not empty and hold no separator,
    and splitting such a word again returns the word alone. *)
Theorem split_words query :
  Forall (λ word, word ≠ EmptyString ∧ has_space word = false ∧
                  split word = [word]) (split query).
Proof.
  eapply Forall_impl; [by apply split_from_words|].
  intros w [Hne Hs]. split; [done|]. split; [done|]. by apply split_word.
Qed.

(** A separator cuts the string: the words of [s1], a separator and
    [s2] are the words of [s1] followed by the words of [s2]. *)
Theorem split_separator s1 c s2 :
  is_space c = true →
  split (s1 +:+ String c s2) = split s1 ++ split s2.
Proof. apply split_from_sep. Qed.

Lemma split_separator_witness :
  split ("rank" +:+ String " "%char "page") = split "rank" ++ split "page".
Proof. apply (split_separator "rank" " "%char "page"). reflexivity. Defined.

(** ** [create_inverted_index] *)

Section IndexProperties.
Variable lower unidecode : string → string.

Lemma lookup_add_word page inverted_index word term :
  add_word lower unidecode page inverted_index word !! term =
  if decide (unidecode (lower word) = term)
  then Some (default [] (inverted_index !! term) ++ [page])
  else inverted_index !! term.
Proof.
  unfold add_word. destruct (decide (unidecode (lower word) = term)) as [<-|Hne].
  - by rewrite lookup_insert_eq.
  - by rewrite lookup_insert_ne.
Qed.

Lemma add_words_lookup page words inverted_index term :
  inverted_index !! term ≠ Some [] →
  foldl (add_word lower unidecode page) inverted_index words !! term ≠ Some [] ∧
  default [] (foldl (add_word lower unidecode page) inverted_index words !! term) =
  default [] (inverted_index !! term) ++
  ((λ _, page) <$> filter (λ word, unidecode (lower word) = term) words).
Proof.
  revert inverted_index. induction words as [|word words IH]; intros idx Hidx.
  - simpl. by rewrite (right_id_L [] (++)).
  - cbn [foldl]. destruct (IH (add_word lower unidecode page idx word)) as [IH1 IH2].
    { rewrite lookup_add_word. case_decide; [|done].
      intros [= Heq]. by destruct (default [] (idx !! term)). }
    split; [done|]. rewrite IH2, lookup_add_word, filter_cons.
    destruct (decide (unidecode (lower word) = term)); [|done].
    simpl. by rewrite <-(assoc_L (++)).
Qed.

Lemma postings_of_page (page : string) (words : list string) term :
  fst <$> filter (λ pw : string * string, unidecode (lower pw.2) = term)
                 ((λ word, (page, word)) <$> words) =
  (λ _, page) <$> filter (λ word, unidecode (lower word) = term) words.
Proof.
  induction words as [|w ws IHw]; [done|].
  rewrite fmap_cons, !filter_cons. cbn [snd].
  destruct (decide (unidecode (lower w) = term)).
  - rewrite !fmap_cons. cbn [fst]. by f_equal.
  - done.
Qed.

Lemma index_pages_lookup page_contents inverted_index term :
  inverted_index !! term ≠ Some [] →
  foldl (index_page lower unidecode) inverted_index page_contents !! term ≠ Some [] ∧
  default [] (foldl (index_page lower unidecode) inverted_index page_contents !! term) =
  default [] (inverted_index !! term) ++
  postings_of lower unidecode page_contents term.
Proof.
  unfold postings_of, page_words.
  revert inverted_index. induction page_contents as [|[page content] pcs IH];
    intros idx Hidx.
  - simpl. by rewrite (right_id_L [] (++)).
  - cbn [foldl]. unfold index_page at 2 4.
    destruct (add_words_lookup page (split content) idx term Hidx) as [H1 H2].
    destruct (IH _ H1) as [IH1 IH2]. split; [done|].
    rewrite IH2, H2, bind_cons, filter_app, fmap_app, <-(assoc_L (++)).
    simpl. by rewrite postings_of_page.
Qed.

Lemma create_inverted_index_lookup page_contents term :
  create_inverted_index lower unidecode page_contents !! term =
  match postings_of lower unidecode page_contents term with
  | [] => None
  | posting => Some posting
  end.
Proof.
  unfold create_inverted_index.
  destruct (index_pages_lookup page_contents ∅ term) as [H1 H2].
  { by rewrite lookup_empty. }
  rewrite lookup_empty in H2. simpl in H2. rewrite <-H2.
  destruct (foldl _ _ _ !! term) as [[|p l]|]; done.
Qed.

End IndexProperties.

(** ** Scores as multiples of the rank *)

Lemma of_len_add n m : of_len (n + m) = of_len n + of_len m.
Proof. unfold of_len. by rewrite Nat2Z.inj_add, Z2Qc_inj_add. Qed.

Lemma occurrences_nil node : occurrences node [] = 0%nat.
Proof. done. Qed.

Lemma occurrences_pos node l : (0 < occurrences node l)%nat ↔ node ∈ l.
Proof.
  induction l as [|x l IH].
  - rewrite occurrences_nil, elem_of_nil. lia.
  - rewrite occurrences_cons, elem_of_cons. case_decide; [|naive_solver].
    split; [auto|lia].
Qed.

Lemma sum_list_cons_eq x l : sum_list (x :: l) = (x + sum_list l)%nat.
Proof. done. Qed.

Lemma query_score_hits terms inverted_index page_ranks page :
  query_score terms inverted_index page_ranks page =
  of_len (hits terms inverted_index page) * default 0 (page_ranks !! page).
Proof.
  unfold query_score, hits. induction terms as [|term terms IH].
  - rewrite !fmap_nil, sum_Qc_nil. simpl. rewrite of_len_0. ring.
  - rewrite !fmap_cons, sum_Qc_cons, IH, sum_list_cons_eq.
    rewrite of_len_add. unfold term_score.
    destruct (inverted_index !! term); simpl; [ring|].
    rewrite occurrences_nil, of_len_0. ring.
Qed.

Lemma Qcmult_pos_inv_r x y : 0 ≤ x → 0 < x * y → 0 < y.
Proof.
  intros Hx Hxy. apply Qcnot_le_lt. intros Hy.
  apply (Qcmult_le_mono_nonneg_l y 0 x) in Hy; [|done].
  rewrite Qcmult_0_r in Hy. by apply Qcle_not_lt in Hy.
Qed.

Lemma hits_matches terms inverted_index page :
  (0 < hits terms inverted_index page)%nat ↔ matches inverted_index terms page.
Proof.
  unfold hits, matches. induction terms as [|term terms IH].
  - simpl. split; [lia|]. intros (? & ? & Hin & _). by apply elem_of_nil in Hin.
  - rewrite fmap_cons, sum_list_cons_eq. split.
    + intros Hpos.
      destruct (decide (0 < occurrences page (default [] (inverted_index !! term)))%nat)
        as [Hocc|Hocc].
      * apply occurrences_pos in Hocc.
        destruct (inverted_index !! term) as [posting|] eqn:E;
          [|by apply elem_of_nil in Hocc].
        exists term, posting. split; [apply list_elem_of_here|done].
      * destruct IH as [IH _]. destruct IH as (t & p & ? & ? & ?); [lia|].
        exists t, p. split; [by apply list_elem_of_further|done].
    + intros (t & p & Hin & Hp & Hpage).
      apply elem_of_cons in Hin as [-> | Hin].
      * rewrite Hp. simpl. apply occurrences_pos in Hpage. lia.
      * destruct IH as [_ IH]. assert (0 < sum_list
          ((λ term0, occurrences page (default [] (inverted_index !! term0))) <$> terms))%nat.
        { apply IH. by exists t, p. }
        lia.
Qed.

Lemma elem_of_search_rank lower unidecode query inverted_index page_ranks page score :
  (page, score) ∈ search lower unidecode query inverted_index page_ranks ↔
  ∃ rank,
    page_ranks !! page = Some rank ∧ 0 < rank ∧
    matches inverted_index (query_terms lower unidecode query) page ∧
    score = of_len (hits (query_terms lower unidecode query) inverted_index page) * rank.
Proof.
  rewrite elem_of_search_score, query_score_hits. split.
  - intros [-> Hpos].
    assert (0 < default 0 (page_ranks !! page)) as Hrank.
    { eapply Qcmult_pos_inv_r; [apply of_len_nonneg|exact Hpos]. }
    destruct (page_ranks !! page) as [rank|] eqn:E; [|done]. simpl in *.
    exists rank. split; [done|]. split; [done|]. split; [|done].
    apply hits_matches.
    destruct (hits _ _ _); [|lia]. rewrite of_len_0, Qcmult_0_l in Hpos. done.
  - intros (rank & -> & Hrank & Hhits%hits_matches & ->). simpl. split; [done|].
    apply Qcmult_pos_pos; [by apply of_len_pos|done].
Qed.


(** ** The index and the search together *)

Lemma elem_of_page_words (page_contents : list (string * string)) page word :
  (page, word) ∈ page_words page_contents ↔
  ∃ content, (page, content) ∈ page_contents ∧ word ∈ split content.
Proof.
  unfold page_words. rewrite list_elem_of_bind. split.
  - intros ([p content] & Hin & Hpc). simpl in Hin.
    apply list_elem_of_fmap in Hin as (w & [= -> ->] & Hw). eauto.
  - intros (content & Hpc & Hw). exists (page, content). split; [|done].
    simpl. apply list_elem_of_fmap. eauto.
Qed.

Lemma elem_of_postings_of lower unidecode page_contents term page :
  page ∈ postings_of lower unidecode page_contents term ↔
  ∃ content word,
    (page, content) ∈ page_contents ∧ word ∈ split content ∧
    unidecode (lower word) = term.
Proof.
  unfold postings_of. rewrite list_elem_of_fmap. split.
  - intros ([p w] & -> & [Hn Hin]%list_elem_of_filter). simpl in *.
    apply elem_of_page_words in Hin as (content & ? & ?). eauto.
  - intros (content & word & Hpc & Hw & Hn). exists (page, word).
    split; [done|]. apply list_elem_of_filter. split; [done|].
    apply elem_of_page_words. eauto.
Qed.

Lemma occurrences_postings_of lower unidecode page_contents term page :
  occurrences page (postings_of lower unidecode page_contents term) =
  length (filter (λ pw, pw.1 = page ∧ unidecode (lower pw.2) = term)
                 (page_words page_contents)).
Proof.
  unfold occurrences, postings_of.
  induction (page_words page_contents) as [|[p w] l IH]; [done|].
  rewrite !filter_cons. cbn [fst snd].
  destruct (decide (unidecode (lower w) = term)) as [Hn|Hn].
  - rewrite fmap_cons, filter_cons. cbn [fst].
    destruct (decide (p = page)) as [Hp|Hp].
    + rewrite decide_True by done. simpl. by rewrite IH.
    + rewrite decide_False by naive_solver. done.
  - rewrite decide_False by naive_solver. done.
Qed.

(** X2: the index maps a term to the pages of the words that normalise
    to it, one entry per word, in the order of the pages and of the words
    in each page; a term no word normalises to has no key (no posting
    list is empty).  A page occurs in the posting list as often as a word
    of its content normalises to the term. *)
Theorem create_inverted_index_postings lower unidecode page_contents term :
  create_inverted_index lower unidecode page_contents !! term =
    match postings_of lower unidecode page_contents term with
    | [] => None
    | posting => Some posting
    end ∧
  (∀ page,
     page ∈ postings_of lower unidecode page_contents term ↔
     ∃ content word,
       (page, content) ∈ page_contents ∧ word ∈ split content ∧
       unidecode (lower word) = term) ∧
  (∀ page,
     occurrences page (postings_of lower unidecode page_contents term) =
     length (filter (λ pw, pw.1 = page ∧ unidecode (lower pw.2) = term)
                    (page_words page_contents))).
Proof.
  split; [apply create_inverted_index_lookup|]. split.
  - intros page. apply elem_of_postings_of.
  - intros page. apply occurrences_postings_of.
Qed.

Lemma create_inverted_index_default lower unidecode page_contents term :
  default [] (create_inverted_index lower unidecode page_contents !! term) =
  postings_of lower unidecode page_contents term.
Proof.
  rewrite create_inverted_index_lookup.
  by destruct (postings_of lower unidecode page_contents term).
Qed.

Lemma matches_create_inverted_index lower unidecode page_contents terms page :
  matches (create_inverted_index lower unidecode page_contents) terms page ↔
  ∃ term, term ∈ terms ∧ page ∈ postings_of lower unidecode page_contents term.
Proof.
  unfold matches. split.
  - intros (term & posting & Hin & Hl & Hp). exists term. split; [done|].
    rewrite <-create_inverted_index_default, Hl. done.
  - intros (term & Hin & Hp). rewrite <-create_inverted_index_default in Hp.
    destruct (create_inverted_index _ _ _ !! term) as [posting|] eqn:E;
      [|by apply elem_of_nil in Hp].
    by exists term, posting.
Qed.

(** X3: a word of a document finds the document.  When the query is a
    word as it stands in the content of a page that has a positive rank,
    [search] on the index of the corpus returns the page, with a score
    that is at least its rank. *)
Theorem search_finds_word lower unidecode page_contents page_ranks
    page content word rank :
  (page, content) ∈ page_contents →
  word ∈ split content →
  page_ranks !! page = Some rank →
  0 < rank →
  ∃ score,
    (page, score) ∈ search lower unidecode word
      (create_inverted_index lower unidecode page_contents) page_ranks ∧
    rank ≤ score.
Proof.
  intros Hpc Hw Hrank Hpos.
  assert (query_terms lower unidecode word = [unidecode (lower word)]) as Hterms.
  { unfold query_terms. by rewrite (split_word_again content word Hw). }
  set (idx := create_inverted_index lower unidecode page_contents).
  assert (matches idx [unidecode (lower word)] page) as Hm.
  { apply matches_create_inverted_index. exists (unidecode (lower word)).
    split; [apply list_elem_of_here|]. apply elem_of_postings_of. eauto. }
  exists (of_len (hits [unidecode (lower word)] idx page) * rank). split.
  - apply elem_of_search_score. rewrite Hterms, query_score_hits, Hrank. simpl.
    split; [done|]. apply Qcmult_pos_pos; [|done].
    by apply of_len_pos, hits_matches.
  - apply hits_matches in Hm.
    destruct (hits [unidecode (lower word)] idx page) as [|n]; [lia|].
    rewrite of_len_S. rewrite <-(Qcmult_1_l rank) at 1.
    apply Qcmult_le_mono_nonneg_r; [by apply Qclt_le_weak|].
    rewrite <-(Qcplus_0_l 1) at 1. apply Qcplus_le_mono_r, of_len_nonneg.
Qed.

Lemma search_finds_word_witness :
  ∃ score,
    ("a.html"%string, score) ∈ search ascii_lower ascii_unidecode "Rank"
      (create_inverted_index ascii_lower ascii_unidecode
         [("a.html", "Page Rank")]%string)
      {[ "a.html"%string := Q2Qc (1 # 2) ]} ∧
    Q2Qc (1 # 2) ≤ score.
Proof.
  apply (search_finds_word ascii_lower ascii_unidecode
           [("a.html", "Page Rank")]%string
           {[ "a.html"%string := Q2Qc (1 # 2) ]}
           "a.html"%string "Page Rank"%string "Rank"%string (Q2Qc (1 # 2))).
  - apply list_elem_of_here.
  - vm_compute. apply list_elem_of_further, list_elem_of_here.
  - reflexivity.
  - reflexivity.
Defined.


(** ** Ties in the result of [search] *)

Lemma insert_desc_tie x l rank :
  filter (λ entry, entry.2 = rank) (insert_desc x l) =
  filter (λ entry, entry.2 = rank) (x :: l).
Proof.
  induction l as [|y l IH]; [done|]. cbn [insert_desc].
  case_bool_decide as Hlt; [|done].
  rewrite filter_cons, IH, !filter_cons.
  destruct (decide (y.2 = rank)) as [Hy|Hy]; [|done].
  destruct (decide (x.2 = rank)) as [Hx|Hx]; [|done].
  rewrite Hx, Hy in Hlt. by apply Qclt_not_eq in Hlt.
Qed.

Lemma sorted_desc_tie l rank :
  filter (λ entry, entry.2 = rank) (sorted_desc l) =
  filter (λ entry, entry.2 = rank) l.
Proof.
  induction l as [|x l IH]; [done|]. cbn [sorted_desc foldr].
  fold (sorted_desc l). by rewrite insert_desc_tie, !filter_cons, IH.
Qed.

(** X5: the sort of [search] is stable: the returned documents that have
    the same score stand in the order in which the results table, a
    dictionary in insertion order, holds them. *)
Theorem search_ties_in_match_order lower unidecode query inverted_index page_ranks rank :
  filter (λ entry, entry.2 = rank)
         (search lower unidecode query inverted_index page_ranks) =
  filter (λ entry, entry.2 = rank ∧ 0 < entry.2)
         (search_results lower unidecode query inverted_index page_ranks).
Proof.
  unfold search. by rewrite sorted_desc_tie, list_filter_filter.
Qed.

(** ** The graph and the page contents of [read_html_files] *)

Lemma od_set_keys {V} k (v : V) d :
  (od_set k v d).*1 = if decide (k ∈ d.*1) then d.*1 else d.*1 ++ [k].
Proof.
  induction d as [|[k' v'] d IH].
  - cbn [od_set fmap list_fmap app]. rewrite decide_False; [done|]. apply not_elem_of_nil.
  - cbn [od_set]. destruct (decide (k' = k)) as [->|Hne].
    + rewrite fmap_cons. cbn [fst]. rewrite decide_True; [done|]. apply list_elem_of_here.
    + rewrite !fmap_cons, IH. cbn [fst]. destruct (decide (k ∈ d.*1)) as [Hin|Hin].
      * rewrite decide_True; [done|]. by apply list_elem_of_further.
      * rewrite decide_False; [done|]. rewrite elem_of_cons. naive_solver.
Qed.

Lemma od_get_set {V} k (v : V) d k' :
  od_get k' (od_set k v d) = if decide (k = k') then Some v else od_get k' d.
Proof.
  induction d as [|[k0 v0] d IH]; simpl.
  - by destruct (decide (k = k')).
  - destruct (decide (k0 = k)) as [->|Hne]; simpl.
    + by destruct (decide (k = k')).
    + rewrite IH. destruct (decide (k0 = k')) as [->|Hne']; [|done].
      by rewrite decide_False.
Qed.

Lemma od_set_fresh {V} k (v : V) d : k ∉ d.*1 → od_set k v d = d ++ [(k, v)].
Proof.
  induction d as [|[k' v'] d IH]; [done|].
  rewrite fmap_cons, not_elem_of_cons. cbn [fst od_set]. intros [Hne Hin].
  rewrite decide_False by done. by rewrite IH.
Qed.

Lemma read_html_files_keys_foldl files acc :
  (pages_of acc).*1 = (page_contents_of acc).*1 →
  NoDup (pages_of acc).*1 →
  let c := foldl read_html_file acc files in
  (pages_of c).*1 = (page_contents_of c).*1 ∧ NoDup (pages_of c).*1 ∧
  ∀ name, name ∈ (pages_of c).*1 ↔
          name ∈ (pages_of acc).*1 ∨ name ∈ page_name <$> files.
Proof.
  revert acc. induction files as [|f files IH]; intros acc Heq Hnd; simpl.
  - split; [done|]. split; [done|]. intros name. rewrite elem_of_nil. tauto.
  - destruct (IH (read_html_file acc f)) as (IH1 & IH2 & IH3).
    + simpl. by rewrite !od_set_keys, Heq.
    + simpl. rewrite od_set_keys. case_decide as Hin; [done|].
      apply NoDup_app. split; [done|]. split; [|apply NoDup_singleton].
      intros y Hy ->%list_elem_of_singleton. done.
    + split; [done|]. split; [done|]. intros name. rewrite IH3. simpl.
      rewrite od_set_keys, elem_of_cons. case_decide as Hin.
      * split; [tauto|]. intros [?|[->|?]]; tauto.
      * rewrite elem_of_app, list_elem_of_singleton. tauto.
Qed.

(** X6: the graph and the page contents [read_html_files] returns have
    the same keys in the same order, no key twice, and the keys are the
    names of the files of the corpus. *)
Theorem read_html_files_keys files :
  (pages_of (read_html_files files)).*1 =
    (page_contents_of (read_html_files files)).*1 ∧
  NoDup (pages_of (read_html_files files)).*1 ∧
  ∀ name, name ∈ (pages_of (read_html_files files)).*1 ↔
          name ∈ page_name <$> files.
Proof.
  destruct (read_html_files_keys_foldl files (Corpus [] [] ∅)) as (H1 & H2 & H3);
    [done|constructor|].
  split; [done|]. split; [done|]. intros name. rewrite H3. simpl.
  rewrite elem_of_nil. tauto.
Qed.

Lemma read_html_files_distinct_foldl files acc :
  NoDup ((pages_of acc).*1 ++ (page_name <$> files)) →
  (pages_of acc).*1 = (page_contents_of acc).*1 →
  pages_of (foldl read_html_file acc files) =
    pages_of acc ++ ((λ f, (page_name f, hrefs f)) <$> files) ∧
  page_contents_of (foldl read_html_file acc files) =
    page_contents_of acc ++ ((λ f, (page_name f, body_text f)) <$> files).
Proof.
  revert acc. induction files as [|f files IH]; intros acc Hnd Heq; simpl.
  - by rewrite !(right_id_L [] (++)).
  - assert (page_name f ∉ (pages_of acc).*1) as Hfresh.
    { apply NoDup_app in Hnd as (_ & Hnd & _). intros Hin.
      apply (Hnd _ Hin). apply list_elem_of_here. }
    destruct (IH (read_html_file acc f)) as [IH1 IH2].
    + simpl. rewrite od_set_keys, decide_False by done.
      rewrite <-(assoc_L (++)). done.
    + simpl. by rewrite !od_set_keys, Heq.
    + rewrite IH1, IH2. simpl.
      rewrite !od_set_fresh by (by rewrite <-?Heq).
      by rewrite <-!(assoc_L (++)).
Qed.

(** X7: when the files have distinct names, the graph lists the files in
    the order of the corpus, each with its links, the page contents list
    them with their text, and the returned set holds exactly the link
    targets of the graph. *)
Theorem read_html_files_distinct_names files :
  NoDup (page_name <$> files) →
  pages_of (read_html_files files) = (λ f, (page_name f, hrefs f)) <$> files ∧
  page_contents_of (read_html_files files) =
    (λ f, (page_name f, body_text f)) <$> files ∧
  all_links_of (read_html_files files) =
    link_targets (pages_of (read_html_files files)).
Proof.
  intros Hnd.
  destruct (read_html_files_distinct_foldl files (Corpus [] [] ∅)) as [H1 H2];
    [done|done|].
  split; [done|]. split; [done|].
  apply set_eq. intros node. unfold read_html_files at 2. rewrite H1. simpl.
  unfold read_html_files. rewrite all_links_foldl, elem_of_link_targets. simpl.
  rewrite elem_of_empty. split.
  - intros [[]|(f & Hf & Hn)]. exists (page_name f), (hrefs f). split; [|done].
    apply list_elem_of_fmap. by exists f.
  - intros (page & links & Hin & Hn). right.
    apply list_elem_of_fmap in Hin as (f & [= -> ->] & Hf). eauto.
Qed.

Lemma read_html_files_distinct_names_witness :
  pages_of (read_html_files [HtmlFile "a.html" "A" ["b.html"]; HtmlFile "b.html" "B" []])
    = [("a.html"%string, ["b.html"%string]); ("b.html"%string, [])] ∧
  page_contents_of (read_html_files [HtmlFile "a.html" "A" ["b.html"]; HtmlFile "b.html" "B" []])
    = [("a.html", "A"); ("b.html", "B")]%string ∧
  all_links_of (read_html_files [HtmlFile "a.html" "A" ["b.html"]; HtmlFile "b.html" "B" []])
    = link_targets (pages_of (read_html_files
        [HtmlFile "a.html" "A" ["b.html"]; HtmlFile "b.html" "B" []])).
Proof.
  apply (read_html_files_distinct_names
           [HtmlFile "a.html" "A" ["b.html"]; HtmlFile "b.html" "B" []]).
  simpl. apply NoDup_cons. split; [|apply NoDup_singleton].
  by intros ?%list_elem_of_singleton.
Defined.

(** X8: every link of the graph [read_html_files] returns is in the set
    it returns; and the graph holds for a name the links of the last file
    of that name: a further file replaces the links of its own name and
    leaves those of the other names. *)
Theorem read_html_files_links_in_set files :
  link_targets (pages_of (read_html_files files)) ⊆
    all_links_of (read_html_files files) ∧
  ∀ f name,
    od_get name (pages_of (read_html_files (files ++ [f]))) =
    if decide (page_name f = name) then Some (hrefs f)
    else od_get name (pages_of (read_html_files files)).
Proof.
  split; [apply read_html_files_links_known|].
  intros f name. unfold read_html_files. rewrite foldl_app. simpl.
  apply od_get_set.
Qed.

(** ** The missing-pages loop of the script *)

Lemma add_missing_pages_present pages all_links page_ranks l :
  (∀ page, page ∈ l → is_Some (page_ranks !! page)) →
  foldl (add_missing_page pages all_links) page_ranks l = page_ranks.
Proof.
  induction l as [|page l IH]; intros Hl; [done|]. cbn [foldl].
  assert (add_missing_page pages all_links page_ranks page = page_ranks) as ->.
  { unfold add_missing_page. destruct (Hl page) as [r Hr]; [apply list_elem_of_here|].
    rewrite (bool_decide_false (page_ranks !! page = None)) by congruence.
    by rewrite andb_false_r. }
  apply IH. intros p Hp. by apply Hl, list_elem_of_further.
Qed.

(** X9: the loop of the script that adds the missing pages after
    [initialize_page_ranks] adds nothing: every page of [all_links]
    already has its initial score, so the table is left as it is. *)
Theorem add_missing_pages_noop pages all_links :
  add_missing_pages pages all_links (initialize_page_ranks pages all_links) =
  initialize_page_ranks pages all_links.
Proof.
  unfold add_missing_pages. apply add_missing_pages_present.
  intros page Hin%elem_of_elements. rewrite initialize_page_ranks_uniform.
  eexists. apply lookup_gset_to_gmap_Some. split; [|done]. by apply elem_of_union_l.
Qed.

(** ** Which nodes keep a rank *)

Lemma calculate_page_rank_walk pages all_links iterations :
  ∃ page_ranks,
    calculate_page_rank pages all_links iterations = Some page_ranks ∧
    ∀ node, node ∈ dom page_ranks ↔
            walk pages (all_links ∪ link_targets pages) iterations node.
Proof.
  induction iterations as [|n (ranks & Hr & IH)].
  - eexists. split; [done|]. intros node. simpl.
    by rewrite initialize_page_ranks_uniform, dom_gset_to_gmap.
  - destruct (calculate_page_rank_step pages all_links n)
      as (ranks' & new & Hr' & Hn & Hred).
    rewrite Hr in Hr'. injection Hr' as <-.
    exists new. split; [done|]. intros node.
    rewrite (reduce_map_dom _ _ _ _ _ Hred). simpl. unfold contributes. split.
    + intros (page & links & Hin & Hs & Hnode). exists page, links.
      split; [done|]. split; [done|]. by apply IH, elem_of_dom.
    + intros (page & links & Hin & Hnode & Hw). exists page, links.
      split; [done|]. split; [|done]. by apply elem_of_dom, IH.
Qed.

(** X10: after [n] iterations a node has a rank exactly when a walk of
    [n] links ends at it, each step from a document of the graph to one
    of its links, the first from a node of the initial table. *)
Theorem rank_table_nodes pages all_links iterations :
  ∃ page_ranks,
    calculate_page_rank pages all_links iterations = Some page_ranks ∧
    ∀ node, is_Some (page_ranks !! node) ↔
            walk pages (all_links ∪ link_targets pages) iterations node.
Proof.
  destruct (calculate_page_rank_walk pages all_links iterations) as (ranks & Hr & Hw).
  exists ranks. split; [done|]. intros node. rewrite <-elem_of_dom. apply Hw.
Qed.

Lemma walk_link_target pages start n node :
  walk pages start (S n) node → node ∈ link_targets pages.
Proof.
  intros (page & links & Hin & Hnode & _). apply elem_of_link_targets. eauto.
Qed.

(** X11: a graph without any link loses every rank: when no document
    has a link, the table is empty after the first iteration and after
    every further one, whatever [all_links] holds. *)
Theorem no_link_no_rank pages all_links iterations :
  link_targets pages = ∅ →
  calculate_page_rank pages all_links (S iterations) = Some ∅.
Proof.
  intros Hno.
  destruct (calculate_page_rank_walk pages all_links (S iterations))
    as (ranks & Hr & Hw).
  rewrite Hr. f_equal. apply dom_empty_inv_L, set_eq. intros node.
  rewrite Hw, elem_of_empty. split; [|done].
  intros Hwalk%walk_link_target. by rewrite Hno in Hwalk.
Qed.

Lemma no_link_no_rank_witness :
  calculate_page_rank [("a.html"%string, [])] {["a.html"%string]} 3 = Some ∅.
Proof.
  apply (no_link_no_rank [("a.html"%string, [])] {["a.html"%string]} 2).
  reflexivity.
Defined.

(** ** The floor of the scores *)

Lemma calculate_page_rank_nonneg_aux pages all_links iterations :
  ∃ page_ranks,
    calculate_page_rank pages all_links iterations = Some page_ranks ∧
    nonneg_table page_ranks.
Proof.
  induction iterations as [|n (ranks & Hr & Hnn)].
  - eexists. split; [done|]. apply initialize_page_ranks_nonneg.
  - destruct (calculate_page_rank_step pages all_links n)
      as (ranks' & new & Hr' & Hn & Hred).
    rewrite Hr in Hr'. injection Hr' as <-.
    exists new. split; [done|].
    eapply reduce_page_rank_nonneg; [|exact Hred].
    by apply map_page_rank_nonneg.
Qed.

(** X12: after the first iteration and after every further one, every
    score of the table is at least [(1 - 0.85) / N], with [N] the number
    of nodes of the initial table, and is positive. *)
Theorem rank_floor pages all_links iterations :
  ∃ page_ranks,
    calculate_page_rank pages all_links (S iterations) = Some page_ranks ∧
    ∀ node score,
      page_ranks !! node = Some score →
      (1 - damping_factor) / of_len (size (all_links ∪ link_targets pages)) ≤ score ∧
      0 < score.
Proof.
  destruct (calculate_page_rank_step pages all_links iterations)
    as (ranks & new & Hr & Hn & Hred).
  exists new. split; [done|]. intros node score Hs.
  rewrite (reduce_page_rank_lookup _ _ _ _ node Hred) in Hs.
  destruct (map_page_rank pages ranks !! node) as [c|] eqn:Hc; [|done].
  injection Hs as <-.
  assert (0 ≤ c) as Hc0.
  { eapply map_page_rank_nonneg; [|exact Hc].
    intros n s Hns. destruct (calculate_page_rank_nonneg_aux pages all_links iterations)
      as (r & Hr' & Hnn). rewrite Hr in Hr'. injection Hr' as <-. by eapply Hnn. }
  assert (0 ≤ damping_factor * c) as Hdc.
  { apply Qcmult_nonneg_nonneg; [apply damping_factor_bounds|done]. }
  assert (0 < (1 - damping_factor) / of_len (size (all_links ∪ link_targets pages)))
    as Hfloor.
  { apply Qcmult_pos_pos.
    - by apply (bool_decide_unpack (0 < 1 - damping_factor)).
    - apply Qcinv_pos, of_len_pos.
      assert (node ∈ link_targets pages) as Hnode.
      { assert (contributes ranks pages node) as (p & l & ? & _ & ?).
        { apply map_page_rank_is_Some. eauto. }
        apply elem_of_link_targets. eauto. }
      destruct (size (all_links ∪ link_targets pages)) eqn:Hsize; [|lia].
      apply size_empty_inv in Hsize.
      assert (node ∈ all_links ∪ link_targets pages) as Hin by by apply elem_of_union_r.
      by rewrite (Hsize node) in Hin. }
  split.
  - rewrite <-(Qcplus_0_r (_ / _)) at 1. by apply Qcplus_le_mono_l.
  - by apply Qcplus_pos_nonneg.
Qed.

(** ** The rank mass *)



























(** ** The script as a whole *)

Lemma read_html_files_pages_from_files files page links :
  (page, links) ∈ pages_of (read_html_files files) →
  ∃ f, f ∈ files ∧ page = page_name f ∧ links = hrefs f.
Proof.
  unfold read_html_files.
  assert (∀ acc,
            (page, links) ∈ pages_of (foldl read_html_file acc files) →
            (page, links) ∈ pages_of acc ∨
            ∃ f, f ∈ files ∧ page = page_name f ∧ links = hrefs f) as H.
  { induction files as [|f files IH]; intros acc Hin; [by left|].
    simpl in Hin. apply IH in Hin as [Hin|(g & Hg & ?)].
    - simpl in Hin. apply elem_of_od_set in Hin as [[= -> ->]|Hin]; [|by left].
      right. exists f. split; [apply list_elem_of_here|done].
    - right. exists g. split; [by apply list_elem_of_further|done]. }
  intros Hin. apply H in Hin as [Hin|?]; [|done]. by apply elem_of_nil in Hin.
Qed.

Lemma search_engine_returns lower unidecode files query :
  ∃ page_ranks,
    calculate_page_rank (pages_of (read_html_files files))
                        (all_links_of (read_html_files files)) 10 = Some page_ranks ∧
    search_engine lower unidecode files query =
    Some (search lower unidecode query
            (create_inverted_index lower unidecode
               (page_contents_of (read_html_files files))) page_ranks).
Proof.
  destruct (calculate_page_rank_total (pages_of (read_html_files files))
              (all_links_of (read_html_files files)) 10) as [ranks Hr].
  exists ranks. split; [done|]. unfold search_engine. by rewrite Hr.
Qed.

(** X17: the script answers every query (the rank computation does not
    fail), and it only returns a page that is a file of the corpus, that
    some file of the corpus links to, and whose content holds a word that
    normalises to a query term; the score is positive.  A file that no
    file links to is never returned. *)
Theorem search_engine_results lower unidecode files query :
  ∃ results,
    search_engine lower unidecode files query = Some results ∧
    ∀ page score,
      (page, score) ∈ results →
      page ∈ page_name <$> files ∧
      (∃ f, f ∈ files ∧ page ∈ hrefs f) ∧
      (∃ content word,
         (page, content) ∈ page_contents_of (read_html_files files) ∧
         word ∈ split content ∧
         unidecode (lower word) ∈ query_terms lower unidecode query) ∧
      0 < score.
Proof.
  destruct (search_engine_returns lower unidecode files query) as (ranks & Hr & ->).
  eexists. split; [done|]. intros page score Hin.
  pose proof Hin as [_ Hpos]%elem_of_search_score.
  apply elem_of_search_rank in Hin as (rank & Hrank & _ & Hm & _).
  apply matches_create_inverted_index in Hm as (term & Hterm & Hp).
  apply elem_of_postings_of in Hp as (content & word & Hpc & Hw & <-).
  split; [|split; [|split; [|done]]].
  - destruct (read_html_files_keys_foldl files (Corpus [] [] ∅)) as (Hk & _ & Hn);
      [done|constructor|].
    fold (read_html_files files) in Hk, Hn.
    assert (page ∈ (pages_of (read_html_files files)).*1) as Hkey.
    { rewrite Hk. apply list_elem_of_fmap. by exists (page, content). }
    apply Hn in Hkey as [Hkey|Hkey]; [by apply elem_of_nil in Hkey|done].
  - destruct (calculate_page_rank_walk (pages_of (read_html_files files))
                (all_links_of (read_html_files files)) 10) as (ranks' & Hr' & Hwalk).
    rewrite Hr in Hr'. injection Hr' as <-.
    assert (page ∈ dom ranks) as Hdom by (apply elem_of_dom; eauto).
    apply Hwalk in Hdom as (p & links & Hpl & Hpage & _).
    apply read_html_files_pages_from_files in Hpl as (f & Hf & _ & ->). eauto.
  - by exists content, word.
Qed.

(** ** The script on a small corpus *)

(** [a.html] links to [b.html] and nothing links to [a.html]: no walk of
    ten links exists, no page keeps a rank and no query finds a page. *)
Lemma example_engine_without_cycle :
  search_engine ascii_lower ascii_unidecode
    [HtmlFile "a.html" "alpha" ["b.html"]; HtmlFile "b.html" "beta" []] "alpha beta"
  = Some [].
Proof. vm_compute. reflexivity. Qed.

(** Two pages that link to each other keep the rank 1/2 each, and a word
    of a page finds the page. *)
Lemma example_engine_two_cycle :
  (fmap (M:=list) (λ entry : string * Qc, (entry.1, this entry.2))) <$>
    search_engine ascii_lower ascii_unidecode
      [HtmlFile "a.html" "alpha" ["b.html"]; HtmlFile "b.html" "Beta beta" ["a.html"]]
      "BETA"
  = Some [("b.html"%string, (1 # 1)%Q)].
Proof. vm_compute. reflexivity. Qed.
